(** * Monotone polygon triangulation: a shallow embedding of [triangulation.py]

    The Python functions [orientation], [find_chains],
    [triangulate_x_monotone] and the pure part of [print_diagonals] are
    transcribed as Rocq functions.  Python integers are [Z] (coordinates) or
    [nat] (list indices, which the program only draws from [range(n)]); Python
    lists are Rocq lists in the same order, so a stack has its bottom first
    and its top last.  Exceptions and loops are explicit: every function that
    can raise returns a [result], and every [while] loop is a [Fixpoint] on a
    fuel counter that answers [OutOfFuel] when the counter is exhausted. *)

From stdpp Require Import base decidable option numbers list sorting strings.
From Stdlib Require Import ZArith Lia.

Local Open Scope Z_scope.

(** ** Results of fallible computations *)

Inductive exn : Set := ValueError | IndexError | ZeroDivisionError.

Inductive result (A : Type) : Type :=
  | Ok (a : A)
  | Raise (e : exn)
  | OutOfFuel.

Arguments Ok {A} a.
Arguments Raise {A} e.
Arguments OutOfFuel {A}.

Definition result_bind {A B : Type} (f : A → result B) (c : result A) : result B :=
  match c with
  | Ok a => f a
  | Raise e => Raise e
  | OutOfFuel => OutOfFuel
  end.

#[global] Instance result_mbind : MBind result := @result_bind.
#[global] Instance result_mret : MRet result := @Ok.

(** ** Python lists *)

Module PyList.

(** [l[i]] for a non-negative index. *)
Definition getitem {A : Type} (l : list A) (i : nat) : result A :=
  match l !! i with
  | Some v => Ok v
  | None => Raise IndexError
  end.

(** [l[-k]] for [k >= 1]. *)
Definition getitem_back {A : Type} (l : list A) (k : nat) : result A :=
  if decide (k ≤ length l)%nat then getitem l (length l - k) else Raise IndexError.

(** [l[i] = v] for a non-negative index. *)
Definition setitem {A : Type} (l : list A) (i : nat) (v : A) : result (list A) :=
  if decide (i < length l)%nat then Ok (<[i:=v]> l) else Raise IndexError.

(** [l.append(v)] *)
Definition append {A : Type} (l : list A) (v : A) : list A := l ++ [v].

(** [l.pop()]: the last element and the list without it. *)
Definition pop {A : Type} (l : list A) : result (A * list A) :=
  match reverse l with
  | [] => Raise IndexError
  | v :: r => Ok (v, reverse r)
  end.

(** [range(lo, hi)] *)
Definition range (lo hi : nat) : list nat := seq lo (hi - lo).

(** [a % n] on non-negative integers. *)
Definition modulo (a n : nat) : result nat :=
  if decide (n = 0)%nat then Raise ZeroDivisionError else Ok (a mod n)%nat.

(** [min(l, key=key)]: the first element whose key is minimal. *)
Fixpoint min_scan (key : nat → result Z) (best : nat) (kbest : Z) (l : list nat)
  : result nat :=
  match l with
  | [] => Ok best
  | i :: l' =>
      k ← key i;
      if k <? kbest then min_scan key i k l' else min_scan key best kbest l'
  end.

Definition min (key : nat → result Z) (l : list nat) : result nat :=
  match l with
  | [] => Raise ValueError
  | i :: l' => k ← key i; min_scan key i k l'
  end.

(** [max(l, key=key)]: the first element whose key is maximal. *)
Fixpoint max_scan (key : nat → result Z) (best : nat) (kbest : Z) (l : list nat)
  : result nat :=
  match l with
  | [] => Ok best
  | i :: l' =>
      k ← key i;
      if k >? kbest then max_scan key i k l' else max_scan key best kbest l'
  end.

Definition max (key : nat → result Z) (l : list nat) : result nat :=
  match l with
  | [] => Raise ValueError
  | i :: l' => k ← key i; max_scan key i k l'
  end.

(** Keys of the two sorts of the program are pairs of integers, compared
    lexicographically as Python compares tuples. *)
Definition key_le (a b : Z * Z) : bool :=
  (a.1 <? b.1) || ((a.1 =? b.1) && (a.2 <=? b.2)).

(** A stable sort of decorated elements (key, element): an element is put
    before the elements already sorted (which come later in the input) that
    do not have a smaller key. *)
Fixpoint insert_sorted {A : Type} (a : (Z * Z) * A) (l : list ((Z * Z) * A))
  : list ((Z * Z) * A) :=
  match l with
  | [] => [a]
  | b :: l' => if key_le a.1 b.1 then a :: b :: l' else b :: insert_sorted a l'
  end.

Fixpoint stable_sort {A : Type} (l : list ((Z * Z) * A)) : list ((Z * Z) * A) :=
  match l with
  | [] => []
  | a :: l' => insert_sorted a (stable_sort l')
  end.

Fixpoint keys_of {A : Type} (key : A → result (Z * Z)) (l : list A)
  : result (list ((Z * Z) * A)) :=
  match l with
  | [] => Ok []
  | a :: l' => k ← key a; r ← keys_of key l'; Ok ((k, a) :: r)
  end.

(** [sorted(l, key=key)]: the keys are computed first, one per element. *)
Definition sorted {A : Type} (key : A → result (Z * Z)) (l : list A) : result (list A) :=
  d ← keys_of key l; Ok ((stable_sort d).*2).

End PyList.

(** ** The program *)

Record Point : Set := mkPoint { x : Z; y : Z }.

#[global] Instance Point_inhabited : Inhabited Point := populate (mkPoint 0 0).

#[global] Instance Point_eq_dec : EqDecision Point.
Proof. solve_decision. Defined.

Definition Diagonal : Set := Point * Point.

(** [orientation(p, q, r)]: 0 collinear, 1 left turn, -1 right turn. *)
Definition orientation (p q r : Point) : Z :=
  let val := (x q - x p) * (y r - y p) - (y q - y p) * (x r - x p) in
  if val =? 0 then 0 else if val >? 0 then 1 else -1.

Definition UPPER : string := "UPPER".
Definition LOWER : string := "LOWER".

(** [lambda i: points[i].x] *)
Definition x_key (points : list Point) (i : nat) : result Z :=
  p ← PyList.getitem points i; Ok (x p).

(** [min(range(n), key=lambda i: points[i].x)] *)
Definition leftmost (points : list Point) : result nat :=
  PyList.min (x_key points) (PyList.range 0 (length points)).

(** [max(range(n), key=lambda i: points[i].x)] *)
Definition rightmost (points : list Point) : result nat :=
  PyList.max (x_key points) (PyList.range 0 (length points)).

(** First loop of [find_chains]: label UPPER from [left] up to [right]. *)
Fixpoint upper_walk (fuel : nat) (n right : nat) (chain : list string) (i : nat)
  : result (list string) :=
  match fuel with
  | O => OutOfFuel
  | S fuel' =>
      chain ← PyList.setitem chain i UPPER;
      if decide (i = right) then Ok chain
      else i ← PyList.modulo (i + 1) n; upper_walk fuel' n right chain i
  end.

(** Second loop of [find_chains]: label LOWER from [right] up to [left],
    the two extremes excepted. *)
Fixpoint lower_walk (fuel : nat) (n left right : nat) (chain : list string) (i : nat)
  : result (list string) :=
  match fuel with
  | O => OutOfFuel
  | S fuel' =>
      chain ← (if decide (i ≠ left ∧ i ≠ right) then PyList.setitem chain i LOWER
                else Ok chain);
      if decide (i = left) then Ok chain
      else i ← PyList.modulo (i + 1) n; lower_walk fuel' n left right chain i
  end.

Definition find_chains_fuel (fuel : nat) (points : list Point) : result (list string) :=
  let n := length points in
  left ← leftmost points;
  right ← rightmost points;
  let chain := replicate n EmptyString in
  chain ← upper_walk fuel n right chain left;
  lower_walk fuel n left right chain right.

(** The sweep state: the stack of vertex indices and the diagonals so far. *)
Definition sweep_state : Set := list nat * list Diagonal.

(** [while len(stack) > 1: v = stack.pop(); diagonals.append((points[c], points[v]))],
    the loop of the chain change (with [c = cur_idx]) and of the last vertex
    (with [c = last_idx]). *)
Fixpoint connect_loop (fuel : nat) (points : list Point) (c : nat)
    (stack : list nat) (diagonals : list Diagonal) : result sweep_state :=
  match fuel with
  | O => OutOfFuel
  | S fuel' =>
      if decide (1 < length stack)%nat then
        '(v, stack) ← PyList.pop stack;
        pc ← PyList.getitem points c;
        pv ← PyList.getitem points v;
        connect_loop fuel' points c stack (PyList.append diagonals (pc, pv))
      else Ok (stack, diagonals)
  end.

(** The test of the same-chain loop. *)
Definition ear_test (label : string) (ori : Z) : bool :=
  (bool_decide (label = UPPER) && (ori >? 0)) || (bool_decide (label = LOWER) && (ori <? 0)).

(** The [while len(stack) >= 2] loop of the same-chain case. *)
Fixpoint same_chain_loop (fuel : nat) (points : list Point) (chain : list string)
    (cur_idx : nat) (stack : list nat) (diagonals : list Diagonal) : result sweep_state :=
  match fuel with
  | O => OutOfFuel
  | S fuel' =>
      if decide (2 ≤ length stack)%nat then
        a ← PyList.getitem_back stack 2;
        b ← PyList.getitem_back stack 1;
        pa ← PyList.getitem points a;
        pb ← PyList.getitem points b;
        pc ← PyList.getitem points cur_idx;
        let ori := orientation pa pb pc in
        label ← PyList.getitem chain cur_idx;
        if ear_test label ori then
          '(_, stack) ← PyList.pop stack;
          pc ← PyList.getitem points cur_idx;
          pa ← PyList.getitem points a;
          same_chain_loop fuel' points chain cur_idx stack (PyList.append diagonals (pc, pa))
        else Ok (stack, diagonals)
      else Ok (stack, diagonals)
  end.

(** The chain-change branch of the sweep. *)
Definition chain_change (fuel : nat) (points : list Point) (order : list nat)
    (i cur_idx : nat) (st : sweep_state) : result sweep_state :=
  '(stack, diagonals) ← connect_loop fuel points cur_idx st.1 st.2;
  '(_, stack) ← PyList.pop stack;
  prev ← PyList.getitem order (i - 1);
  let stack := PyList.append stack prev in
  Ok (PyList.append stack cur_idx, diagonals).

(** The same-chain branch of the sweep. *)
Definition same_chain (fuel : nat) (points : list Point) (chain : list string)
    (cur_idx : nat) (st : sweep_state) : result sweep_state :=
  '(stack, diagonals) ← same_chain_loop fuel points chain cur_idx st.1 st.2;
  Ok (PyList.append stack cur_idx, diagonals).

(** One iteration of [for i in range(2, n - 1)]. *)
Definition sweep_step (fuel : nat) (points : list Point) (chain : list string)
    (order : list nat) (i : nat) (st : sweep_state) : result sweep_state :=
  cur_idx ← PyList.getitem order i;
  top_idx ← PyList.getitem_back st.1 1;
  lc ← PyList.getitem chain cur_idx;
  lt ← PyList.getitem chain top_idx;
  if decide (lc ≠ lt) then chain_change fuel points order i cur_idx st
  else same_chain fuel points chain cur_idx st.

Fixpoint sweep_loop (fuel : nat) (points : list Point) (chain : list string)
    (order : list nat) (idxs : list nat) (st : sweep_state) : result sweep_state :=
  match idxs with
  | [] => Ok st
  | i :: idxs' =>
      st ← sweep_step fuel points chain order i st;
      sweep_loop fuel points chain order idxs' st
  end.

(** The handling of the last vertex. *)
Definition last_vertex (fuel : nat) (points : list Point) (order : list nat)
    (st : sweep_state) : result sweep_state :=
  last_idx ← PyList.getitem_back order 1;
  stack ← (if decide (st.1 ≠ []) then '(_, stack) ← PyList.pop st.1; Ok stack
            else Ok st.1);
  connect_loop fuel points last_idx stack st.2.

(** [lambda i: (points[i].x, -points[i].y)] *)
Definition sweep_key (points : list Point) (i : nat) : result (Z * Z) :=
  p ← PyList.getitem points i; Ok (x p, - y p).

(** [sorted(range(n), key=lambda i: (points[i].x, -points[i].y))] *)
Definition sweep_order (points : list Point) : result (list nat) :=
  PyList.sorted (sweep_key points) (PyList.range 0 (length points)).

(** The state in which the last vertex is handled. *)
Definition sweep_fuel (fuel : nat) (points : list Point)
  : result (list string * list nat * sweep_state) :=
  let n := length points in
  chain ← find_chains_fuel fuel points;
  order ← sweep_order points;
  let stack := [] in
  o0 ← PyList.getitem order 0;
  let stack := PyList.append stack o0 in
  o1 ← PyList.getitem order 1;
  let stack := PyList.append stack o1 in
  st ← sweep_loop fuel points chain order (PyList.range 2 (n - 1)) (stack, []);
  Ok (chain, order, st).

Definition triangulate_fuel (fuel : nat) (points : list Point) : result (list Diagonal) :=
  '(_, order, st) ← sweep_fuel fuel points;
  '(_, diagonals) ← last_vertex fuel points order st;
  Ok diagonals.

(** No loop of the program runs more often than there are points (see
    [triangulate_fuel_enough]). *)
Definition find_chains (points : list Point) : result (list string) :=
  find_chains_fuel (length points) points.

Definition triangulate_x_monotone (points : list Point) : result (list Diagonal) :=
  triangulate_fuel (length points) points.

(** The pure part of [print_diagonals]: each diagonal with its smaller
    endpoint first, the list sorted by the first endpoint. *)
Definition normalize_diagonal (d : Diagonal) : Diagonal :=
  let '(a, b) := d in
  if (x a >? x b) || ((x a =? x b) && (y a >? y b)) then (b, a) else (a, b).

Definition sorted_diagonals (diagonals : list Diagonal) : list Diagonal :=
  (PyList.stable_sort (map (λ d, ((x d.1, y d.1), d)) (map normalize_diagonal diagonals))).*2.

(** ** Notions used in the statements *)

(** [m] is the first index, scanning from 0, at which [x] is minimal. *)
Definition first_min_x (points : list Point) (m : nat) : Prop :=
  (m < length points)%nat ∧
  ∀ j, (j < length points)%nat →
    x (points !!! m) ≤ x (points !!! j) ∧ ((j < m)%nat → x (points !!! m) < x (points !!! j)).

(** [m] is the first index, scanning from 0, at which [x] is maximal. *)
Definition first_max_x (points : list Point) (m : nat) : Prop :=
  (m < length points)%nat ∧
  ∀ j, (j < length points)%nat →
    x (points !!! j) ≤ x (points !!! m) ∧ ((j < m)%nat → x (points !!! j) < x (points !!! m)).

(** The indices met when walking forward, modulo [n], from [a] up to [b]. *)
Definition arc (n a b : nat) : list nat :=
  if decide (a ≤ b)%nat then seq a (b - a + 1)
  else seq a (n - a) ++ seq 0 (b + 1).

(** The common shape of the two loops of [find_chains]: apply [body] at
    [i], stop at [stop], else go on at [(i + 1) % n]. *)
Fixpoint walk (body : nat → list string → result (list string))
    (fuel n stop : nat) (chain : list string) (i : nat) : result (list string) :=
  match fuel with
  | O => OutOfFuel
  | S fuel' =>
      chain ← body i chain;
      if decide (i = stop) then Ok chain
      else i ← PyList.modulo (i + 1) n; walk body fuel' n stop chain i
  end.

Definition label_upper (i : nat) (chain : list string) : list string :=
  <[i:=UPPER]> chain.

Definition label_lower (left right i : nat) (chain : list string) : list string :=
  if decide (i ≠ left ∧ i ≠ right) then <[i:=LOWER]> chain else chain.

(** All the indices of a stack are indices of [points]. *)
Definition in_range (n : nat) (stack : list nat) : Prop := Forall (λ v, (v < n)%nat) stack.

(** ** Examples *)

Definition hexagon : list Point :=
  [mkPoint 0 0; mkPoint 1 2; mkPoint 3 3; mkPoint 5 1; mkPoint 4 (-1); mkPoint 2 (-2)].

(** A trapezoid whose four vertices all lie on the chain labelled UPPER. *)
Definition trapezoid : list Point :=
  [mkPoint 0 0; mkPoint 1 (-1); mkPoint 2 (-1); mkPoint 3 0].

(** Three vertices on one chain are stacked before the only vertex of the
    other chain is met. *)
Definition crown : list Point :=
  [mkPoint 0 0; mkPoint 1 2; mkPoint 2 3; mkPoint 3 2; mkPoint 4 0; mkPoint 2 (-1)].

(** All five vertices on one chain, none of them an ear for the sweep. *)
Definition pentagon : list Point :=
  [mkPoint 0 0; mkPoint 1 3; mkPoint 2 4; mkPoint 3 3; mkPoint 4 0].

(** ** Notions used in the further properties *)

(** [j] is met when walking forward, modulo the number of points, from
    [left] up to [right]. *)
Definition on_walk (left right j : nat) : Prop :=
  (left ≤ right ∧ left ≤ j ≤ right)%nat ∨ (right < left ∧ (left ≤ j ∨ j ≤ right))%nat.

#[global] Instance on_walk_dec left right j : Decision (on_walk left right j).
Proof. unfold on_walk. apply _. Defined.

(** The point moved by [(dx, dy)], and a diagonal with both ends moved. *)
Definition translate (dx dy : Z) (p : Point) : Point := mkPoint (x p + dx) (y p + dy).

Definition translate_diagonal (dx dy : Z) (d : Diagonal) : Diagonal :=
  (translate dx dy d.1, translate dx dy d.2).

(** A sweep state with the diagonals moved, and a sweep key after the
    points are moved. *)
Definition translate_sweep_state (dx dy : Z) (st : sweep_state) : sweep_state :=
  (st.1, translate_diagonal dx dy <$> st.2).

Definition shift_sweep_key (dx dy : Z) (e : (Z * Z) * nat) : (Z * Z) * nat :=
  ((e.1.1 + dx, e.1.2 - dy), e.2).

#[global] Instance result_fmap : FMap result := λ A B f c,
  match c with
  | Ok a => Ok (f a)
  | Raise e => Raise e
  | OutOfFuel => OutOfFuel
  end.

(** [v] stands in the sweep order at a position below [i]. *)
Definition before (order : list nat) (i v : nat) : Prop :=
  ∃ k, (k < i)%nat ∧ order !! k = Some v.

(** [d] joins a vertex of the sweep order, as first end, to a vertex that
    stands earlier in the sweep order. *)
Definition sweep_diagonal (points : list Point) (order : list nat) (d : Diagonal) : Prop :=
  ∃ j k c v, (k < j)%nat ∧ order !! j = Some c ∧ order !! k = Some v ∧
    d = (points !!! c, points !!! v).

(** [diagonals] are the diagonals of a list of pairwise distinct pairs of
    vertices; in each pair the first vertex stands in the sweep order below
    position [i] and the second stands before the first. *)
Definition indexed_diagonals (points : list Point) (order : list nat) (i : nat)
    (diagonals : list Diagonal) : Prop :=
  ∃ idx : list (nat * nat),
    diagonals = (λ e, (points !!! e.1, points !!! e.2)) <$> idx ∧
    NoDup idx ∧
    Forall (λ e, ∃ j k, (k < j < i)%nat ∧ order !! j = Some e.1 ∧ order !! k = Some e.2) idx.

(** The order of [print_diagonals] on points: by [x], then by [y]. *)
Definition point_le (a b : Point) : Prop := x a < x b ∨ (x a = x b ∧ y a ≤ y b).

(** ** Basic facts on results and Python lists *)

Lemma bind_Ok {A B : Type} (f : A → result B) (a : A) : (Ok a ≫= f) = f a.
Proof. reflexivity. Qed.

Lemma bind_Ok_inv {A B : Type} (f : A → result B) (c : result A) (b : B) :
  c ≫= f = Ok b → ∃ a, c = Ok a ∧ f a = Ok b.
Proof. destruct c as [a| |]; [eauto | discriminate..]. Qed.

Module PyListFacts.
Import PyList.

Section Lists.
Context {A : Type}.
Implicit Types (l : list A) (v : A).

Lemma getitem_Some l i v : l !! i = Some v → getitem l i = Ok v.
Proof. unfold getitem. now intros ->. Qed.

Lemma getitem_Ok_inv l i v : getitem l i = Ok v → l !! i = Some v.
Proof. unfold getitem. destruct (l !! i); [congruence | discriminate]. Qed.

Lemma getitem_lt l i : (i < length l)%nat → ∃ v, l !! i = Some v ∧ getitem l i = Ok v.
Proof.
  intros Hi. destruct (lookup_lt_is_Some_2 l i Hi) as [v Hv].
  exists v. split; [assumption | now apply getitem_Some].
Qed.

Lemma getitem_ge l i : (length l ≤ i)%nat → getitem l i = Raise IndexError.
Proof. intros Hi. unfold getitem. now rewrite lookup_ge_None_2. Qed.

Lemma getitem_back_top l v : getitem_back (l ++ [v]) 1 = Ok v.
Proof.
  unfold getitem_back. rewrite length_app. simpl.
  destruct (decide _) as [_|Hn]; [|lia].
  apply getitem_Some, list_lookup_middle. lia.
Qed.

Lemma getitem_back_second l a b : getitem_back (l ++ [a; b]) 2 = Ok a.
Proof.
  unfold getitem_back. rewrite length_app. simpl.
  destruct (decide _) as [_|Hn]; [|lia].
  apply getitem_Some, list_lookup_middle. lia.
Qed.

Lemma getitem_back_last l v : last l = Some v → getitem_back l 1 = Ok v.
Proof.
  intros Hl. destruct l as [|a l'] using rev_ind; [discriminate|].
  rewrite last_snoc in Hl. injection Hl as ->. apply getitem_back_top.
Qed.

Lemma pop_nil : pop (@nil A) = Raise IndexError.
Proof. reflexivity. Qed.

Lemma pop_snoc l v : pop (l ++ [v]) = Ok (v, l).
Proof. unfold pop. now rewrite reverse_snoc, reverse_involutive. Qed.

Lemma setitem_lt l i v : (i < length l)%nat → setitem l i v = Ok (<[i:=v]> l).
Proof. intros Hi. unfold setitem. now destruct (decide _). Qed.
End Lists.

Lemma modulo_pos a n : (0 < n)%nat → modulo a n = Ok (a mod n)%nat.
Proof. intros Hn. unfold modulo. destruct (decide _); [lia | reflexivity]. Qed.

Lemma range_length lo hi : length (range lo hi) = (hi - lo)%nat.
Proof. apply length_seq. Qed.

End PyListFacts.

(** ** The orientation predicate *)

Lemma orientation_cases (p q r : Point) :
  let val := (x q - x p) * (y r - y p) - (y q - y p) * (x r - x p) in
  (val = 0 ∧ orientation p q r = 0) ∨
  (0 < val ∧ orientation p q r = 1) ∨
  (val < 0 ∧ orientation p q r = -1).
Proof.
  unfold orientation. cbv zeta.
  destruct (Z.eqb_spec ((x q - x p) * (y r - y p) - (y q - y p) * (x r - x p)) 0) as [E|E].
  - now left.
  - right. destruct (Z.gtb_spec ((x q - x p) * (y r - y p) - (y q - y p) * (x r - x p)) 0);
      [left | right]; split; (lia || reflexivity).
Qed.

(** C7: swapping the last two points negates the orientation (left and
    right turn are exchanged, collinear stays collinear), and a triple whose
    first two points coincide is collinear. *)
Theorem orientation_antisymmetric (p q r : Point) :
  orientation p q r = - orientation p r q ∧ orientation p p r = 0.
Proof.
  split.
  - destruct (orientation_cases p q r) as [[H1 ->]|[[H1 ->]|[H1 ->]]],
      (orientation_cases p r q) as [[H2 ->]|[[H2 ->]|[H2 ->]]]; lia.
  - destruct (orientation_cases p p r) as [[H1 ->]|[[H1 ->]|[H1 ->]]]; lia.
Qed.

(** ** The chain classifier *)

Section Extremes.
Variable points : list Point.

Local Abbreviation key := (x_key points).

Lemma key_in_range i : (i < length points)%nat → key i = Ok (x (points !!! i)).
Proof.
  intros Hi. unfold x_key.
  destruct (PyListFacts.getitem_lt points i Hi) as (p & Hp & ->).
  rewrite bind_Ok. now rewrite (list_lookup_total_correct _ _ _ Hp).
Qed.

Lemma min_scan_seq k : ∀ s best,
  (s + k ≤ length points)%nat → (best < s)%nat →
  (∀ j, (j < s)%nat →
     x (points !!! best) ≤ x (points !!! j) ∧
     ((j < best)%nat → x (points !!! best) < x (points !!! j))) →
  ∃ m, PyList.min_scan key best (x (points !!! best)) (seq s k) = Ok m ∧
       (m < s + k)%nat ∧
       ∀ j, (j < s + k)%nat →
         x (points !!! m) ≤ x (points !!! j) ∧
         ((j < m)%nat → x (points !!! m) < x (points !!! j)).
Proof.
  induction k as [|k IH]; intros s best Hs Hb Hinv; simpl.
  - exists best. split; [reflexivity|]. split; [lia|].
    intros j Hj. apply Hinv. lia.
  - rewrite key_in_range by lia. rewrite bind_Ok.
    destruct (Z.ltb_spec (x (points !!! s)) (x (points !!! best))) as [Hlt|Hge].
    + destruct (IH (S s) s) as (m & Hm & Hlm & Hall); [lia | lia | | ].
      * intros j Hj. destruct (decide (j = s)) as [->|Hne]; [lia|].
        destruct (Hinv j) as [H1 _]; [lia|]. lia.
      * exists m. split; [assumption|]. split; [lia|].
        intros j Hj. apply Hall. lia.
    + destruct (IH (S s) best) as (m & Hm & Hlm & Hall); [lia | lia | | ].
      * intros j Hj. destruct (decide (j = s)) as [->|Hne]; [lia|].
        apply Hinv. lia.
      * exists m. split; [assumption|]. split; [lia|].
        intros j Hj. apply Hall. lia.
Qed.

Lemma max_scan_seq k : ∀ s best,
  (s + k ≤ length points)%nat → (best < s)%nat →
  (∀ j, (j < s)%nat →
     x (points !!! j) ≤ x (points !!! best) ∧
     ((j < best)%nat → x (points !!! j) < x (points !!! best))) →
  ∃ m, PyList.max_scan key best (x (points !!! best)) (seq s k) = Ok m ∧
       (m < s + k)%nat ∧
       ∀ j, (j < s + k)%nat →
         x (points !!! j) ≤ x (points !!! m) ∧
         ((j < m)%nat → x (points !!! j) < x (points !!! m)).
Proof.
  induction k as [|k IH]; intros s best Hs Hb Hinv; simpl.
  - exists best. split; [reflexivity|]. split; [lia|].
    intros j Hj. apply Hinv. lia.
  - rewrite key_in_range by lia. rewrite bind_Ok.
    destruct (Z.gtb_spec (x (points !!! s)) (x (points !!! best))) as [Hlt|Hge].
    + destruct (IH (S s) s) as (m & Hm & Hlm & Hall); [lia | lia | | ].
      * intros j Hj. destruct (decide (j = s)) as [->|Hne]; [lia|].
        destruct (Hinv j) as [H1 _]; [lia|]. lia.
      * exists m. split; [assumption|]. split; [lia|].
        intros j Hj. apply Hall. lia.
    + destruct (IH (S s) best) as (m & Hm & Hlm & Hall); [lia | lia | | ].
      * intros j Hj. destruct (decide (j = s)) as [->|Hne]; [lia|].
        apply Hinv. lia.
      * exists m. split; [assumption|]. split; [lia|].
        intros j Hj. apply Hall. lia.
Qed.

Lemma leftmost_first_min :
  points ≠ [] → ∃ m, leftmost points = Ok m ∧ first_min_x points m.
Proof.
  intros Hne. unfold leftmost, PyList.range.
  destruct (length points) as [|k] eqn:Hlen.
  { now apply length_zero_iff_nil in Hlen. }
  rewrite Nat.sub_0_r. simpl seq. unfold PyList.min.
  rewrite key_in_range by lia. rewrite bind_Ok.
  unfold first_min_x. rewrite Hlen.
  destruct (min_scan_seq k 1 0) as (m & Hm & Hlm & Hall); [lia | lia | | ].
  - intros j Hj. assert (j = 0)%nat as -> by lia. lia.
  - exists m. split; [assumption|]. split; [lia|].
    intros j Hj. apply Hall. lia.
Qed.

Lemma rightmost_first_max :
  points ≠ [] → ∃ m, rightmost points = Ok m ∧ first_max_x points m.
Proof.
  intros Hne. unfold rightmost, PyList.range.
  destruct (length points) as [|k] eqn:Hlen.
  { now apply length_zero_iff_nil in Hlen. }
  rewrite Nat.sub_0_r. simpl seq. unfold PyList.max.
  rewrite key_in_range by lia. rewrite bind_Ok.
  unfold first_max_x. rewrite Hlen.
  destruct (max_scan_seq k 1 0) as (m & Hm & Hlm & Hall); [lia | lia | | ].
  - intros j Hj. assert (j = 0)%nat as -> by lia. lia.
  - exists m. split; [assumption|]. split; [lia|].
    intros j Hj. apply Hall. lia.
Qed.

Lemma first_min_x_unique m m' : first_min_x points m → first_min_x points m' → m = m'.
Proof.
  intros [Hm Hall] [Hm' Hall'].
  destruct (Hall m' Hm') as [H1 H2], (Hall' m Hm) as [H3 H4].
  destruct (Nat.lt_trichotomy m m') as [Hlt|[->|Hgt]]; [|reflexivity|]; lia.
Qed.

Lemma first_max_x_unique m m' : first_max_x points m → first_max_x points m' → m = m'.
Proof.
  intros [Hm Hall] [Hm' Hall'].
  destruct (Hall m' Hm') as [H1 H2], (Hall' m Hm) as [H3 H4].
  destruct (Nat.lt_trichotomy m m') as [Hlt|[->|Hgt]]; [|reflexivity|]; lia.
Qed.
End Extremes.

Lemma upper_walk_walk fuel n right : ∀ chain i,
  upper_walk fuel n right chain i
  = walk (λ i chain, PyList.setitem chain i UPPER) fuel n right chain i.
Proof.
  induction fuel as [|fuel IH]; intros chain i; simpl; [reflexivity|].
  destruct (PyList.setitem chain i UPPER) as [c| |]; simpl; try reflexivity.
  destruct (decide (i = right)); [reflexivity|].
  destruct (PyList.modulo (i + 1) n); simpl; auto.
Qed.

Lemma lower_walk_walk fuel n left right : ∀ chain i,
  lower_walk fuel n left right chain i
  = walk (λ i chain, if decide (i ≠ left ∧ i ≠ right)
                     then PyList.setitem chain i LOWER else Ok chain)
      fuel n left chain i.
Proof.
  induction fuel as [|fuel IH]; intros chain i; simpl; [reflexivity|].
  destruct (if decide (i ≠ left ∧ i ≠ right) then _ else _) as [c| |];
    simpl; try reflexivity.
  destruct (decide (i = left)); [reflexivity|].
  destruct (PyList.modulo (i + 1) n); simpl; auto.
Qed.

Section Walk.
Variables (n stop : nat).
Variable body : nat → list string → result (list string).
Variable g : nat → list string → list string.
Hypothesis body_ok : ∀ i chain,
  (i < n)%nat → length chain = n → body i chain = Ok (g i chain).
Hypothesis g_length : ∀ i chain, length (g i chain) = length chain.
Hypothesis stop_lt : (stop < n)%nat.

Lemma foldl_g_length l : ∀ chain, length (foldl (λ c i, g i c) chain l) = length chain.
Proof.
  induction l as [|i l IH]; intros chain; simpl; [reflexivity|].
  now rewrite IH, g_length.
Qed.

(** Walking from [i <= stop] meets [i, i+1, ..., stop]. *)
Lemma walk_straight k : ∀ fuel chain i,
  (i + k = stop)%nat → length chain = n → (k < fuel)%nat →
  walk body fuel n stop chain i = Ok (foldl (λ c i, g i c) chain (seq i (k + 1))).
Proof.
  induction k as [|k IH]; intros fuel chain i Hi Hlen Hfuel;
    (destruct fuel as [|fuel]; [lia|]); simpl.
  - rewrite body_ok by lia. rewrite bind_Ok.
    destruct (decide (i = stop)); [reflexivity | lia].
  - rewrite body_ok by lia. rewrite bind_Ok.
    destruct (decide (i = stop)); [lia|].
    rewrite PyListFacts.modulo_pos by lia. rewrite bind_Ok.
    rewrite Nat.mod_small by lia.
    rewrite (IH fuel (g i chain) (i + 1)%nat); [| lia | now rewrite g_length | lia].
    now replace (i + 1)%nat with (S i) by lia.
Qed.

(** Walking from [i > stop] meets [i, ..., n-1, 0, ..., stop]. *)
Lemma walk_around k : ∀ fuel chain i,
  (i + k + 1 = n)%nat → (stop < i)%nat → length chain = n → (k + stop + 1 < fuel)%nat →
  walk body fuel n stop chain i
  = Ok (foldl (λ c i, g i c) chain (seq i (k + 1) ++ seq 0 (stop + 1))).
Proof.
  induction k as [|k IH]; intros fuel chain i Hi Hst Hlen Hfuel;
    (destruct fuel as [|fuel]; [lia|]); simpl.
  - rewrite body_ok by lia. rewrite bind_Ok.
    destruct (decide (i = stop)); [lia|].
    rewrite PyListFacts.modulo_pos by lia. rewrite bind_Ok.
    replace (i + 1)%nat with n by lia. rewrite Nat.Div0.mod_same.
    now rewrite (walk_straight stop fuel (g i chain) 0%nat);
      [| lia | rewrite g_length | lia].
  - rewrite body_ok by lia. rewrite bind_Ok.
    destruct (decide (i = stop)); [lia|].
    rewrite PyListFacts.modulo_pos by lia. rewrite bind_Ok.
    rewrite Nat.mod_small by lia.
    rewrite (IH fuel (g i chain) (i + 1)%nat); [| lia | lia | now rewrite g_length | lia].
    now replace (i + 1)%nat with (S i) by lia.
Qed.

Lemma walk_arc fuel chain i :
  (i < n)%nat → length chain = n → (n ≤ fuel)%nat →
  walk body fuel n stop chain i = Ok (foldl (λ c i, g i c) chain (arc n i stop)).
Proof.
  intros Hi Hlen Hfuel. unfold arc. destruct (decide (i ≤ stop)%nat) as [Hle|Hgt].
  - apply walk_straight; lia.
  - replace (n - i)%nat with ((n - i - 1) + 1)%nat by lia.
    apply walk_around; lia.
Qed.
End Walk.

Lemma elem_of_arc n a b j :
  (a < n)%nat → (b < n)%nat →
  j ∈ arc n a b ↔ (a ≤ b ∧ a ≤ j ≤ b)%nat ∨ (b < a ∧ (a ≤ j < n ∨ j ≤ b))%nat.
Proof.
  intros Ha Hb. unfold arc. destruct (decide (a ≤ b)%nat).
  - rewrite elem_of_seq. lia.
  - rewrite elem_of_app, !elem_of_seq. lia.
Qed.

Lemma arc_cover n a b j :
  (a < n)%nat → (b < n)%nat → a ≠ b → (j < n)%nat → j ∈ arc n a b ∨ j ∈ arc n b a.
Proof. intros Ha Hb Hab Hj. rewrite !elem_of_arc by assumption. lia. Qed.

Lemma arc_in_range n a b : (a < n)%nat → (b < n)%nat → in_range n (arc n a b).
Proof.
  intros Ha Hb. apply Forall_forall. intros j Hj.
  apply elem_of_arc in Hj; lia.
Qed.

Lemma foldl_label_upper l : ∀ chain j,
  in_range (length chain) l →
  foldl (λ c i, label_upper i c) chain l !! j
  = if decide (j ∈ l) then (if decide (j < length chain)%nat then Some UPPER else None)
    else chain !! j.
Proof.
  induction l as [|i l IH]; intros chain j Hr; simpl.
  - destruct (decide (j ∈ [])) as [H|_]; [now apply elem_of_nil in H | reflexivity].
  - apply Forall_cons in Hr as [Hi Hr]. unfold label_upper at 2.
    rewrite IH by now rewrite length_insert. rewrite length_insert.
    destruct (decide (j ∈ l)) as [Hj|Hj].
    + destruct (decide (j ∈ i :: l)) as [_|Hn]; [reflexivity|].
      exfalso. apply Hn. now right.
    + destruct (decide (j = i)) as [->|Hne].
      * rewrite list_lookup_insert_eq by assumption.
        destruct (decide (i ∈ i :: l)) as [_|Hn]; [|exfalso; apply Hn; left].
        now destruct (decide (i < length chain)%nat).
      * rewrite list_lookup_insert_ne by congruence.
        destruct (decide (j ∈ i :: l)) as [Hin|_]; [|reflexivity].
        apply elem_of_cons in Hin as [?|?]; contradiction.
Qed.

Lemma foldl_label_lower left right l : ∀ chain j,
  in_range (length chain) l →
  foldl (λ c i, label_lower left right i c) chain l !! j
  = if decide (j ∈ l ∧ j ≠ left ∧ j ≠ right) then Some LOWER else chain !! j.
Proof.
  induction l as [|i l IH]; intros chain j Hr; simpl.
  - destruct (decide (j ∈ [] ∧ j ≠ left ∧ j ≠ right)) as [[H _]|_];
      [now apply elem_of_nil in H | reflexivity].
  - apply Forall_cons in Hr as [Hi Hr].
    assert (Hlen : length (label_lower left right i chain) = length chain).
    { unfold label_lower. destruct (decide _); [apply length_insert | reflexivity]. }
    rewrite IH by now rewrite Hlen.
    destruct (decide (j ∈ l ∧ j ≠ left ∧ j ≠ right)) as [(Hj & H1 & H2)|Hj].
    + destruct (decide (j ∈ i :: l ∧ j ≠ left ∧ j ≠ right)) as [_|Hn]; [reflexivity|].
      exfalso. apply Hn. split; [now right | now split].
    + unfold label_lower.
      destruct (decide (j ∈ i :: l ∧ j ≠ left ∧ j ≠ right)) as [(Hin & H1 & H2)|Hn].
      * apply elem_of_cons in Hin as [->|Hin]; [|exfalso; apply Hj; now repeat split].
        destruct (decide (i ≠ left ∧ i ≠ right)) as [_|Hx]; [|exfalso; apply Hx; now split].
        now apply list_lookup_insert_eq.
      * destruct (decide (i ≠ left ∧ i ≠ right)) as [[H1 H2]|_]; [|reflexivity].
        apply list_lookup_insert_ne. intros ->. apply Hn. split; [now left | now split].
Qed.

Lemma find_chains_fuel_arc (points : list Point) (left right fuel : nat) :
  leftmost points = Ok left → rightmost points = Ok right →
  (left < length points)%nat → (right < length points)%nat →
  (length points ≤ fuel)%nat →
  find_chains_fuel fuel points
  = Ok (foldl (λ c i, label_lower left right i c)
          (foldl (λ c i, label_upper i c) (replicate (length points) EmptyString)
             (arc (length points) left right))
          (arc (length points) right left)).
Proof.
  intros Hl Hr Hlt Hrt Hfuel. unfold find_chains_fuel.
  rewrite Hl, Hr, !bind_Ok. cbv zeta.
  rewrite upper_walk_walk.
  rewrite (walk_arc (length points) right _ label_upper); try assumption.
  - rewrite bind_Ok, lower_walk_walk.
    rewrite (walk_arc (length points) left _ (label_lower left right)); try assumption.
    + reflexivity.
    + intros i chain Hi Hlen. unfold label_lower.
      destruct (decide _); [|reflexivity]. apply PyListFacts.setitem_lt. lia.
    + intros i chain. unfold label_lower.
      destruct (decide _); [apply length_insert | reflexivity].
    + rewrite foldl_g_length; [apply length_replicate|].
      intros. apply length_insert.
  - intros i chain Hi Hlen. apply PyListFacts.setitem_lt. lia.
  - intros. apply length_insert.
  - apply length_replicate.
Qed.

Lemma find_chains_fuel_ok (points : list Point) :
  points ≠ [] →
  ∃ chain, length chain = length points ∧
    ∀ fuel, (length points ≤ fuel)%nat → find_chains_fuel fuel points = Ok chain.
Proof.
  intros Hne.
  destruct (leftmost_first_min points Hne) as (left & Hl & Hlt & _).
  destruct (rightmost_first_max points Hne) as (right & Hr & Hrt & _).
  eexists. split; [|intros fuel Hfuel; apply find_chains_fuel_arc; eassumption].
  rewrite !foldl_g_length.
  - apply length_replicate.
  - intros. apply length_insert.
  - intros i chain. unfold label_lower.
    destruct (decide _); [apply length_insert | reflexivity].
Qed.

(** C6: when the first index of minimal x and the first index of maximal x
    differ, [find_chains] takes them as [left] and [right], labels both of
    them UPPER, and gives every index the label UPPER or LOWER. *)
Theorem find_chains_extremes_upper (points : list Point) (left right : nat) :
  first_min_x points left → first_max_x points right → left ≠ right →
  leftmost points = Ok left ∧ rightmost points = Ok right ∧
  ∃ chain,
    find_chains points = Ok chain ∧
    (∀ fuel, (length points ≤ fuel)%nat → find_chains_fuel fuel points = Ok chain) ∧
    length chain = length points ∧
    chain !! left = Some UPPER ∧ chain !! right = Some UPPER ∧
    Forall (λ label, label = UPPER ∨ label = LOWER) chain.
Proof.
  intros Hmin Hmax Hne.
  assert (Hnil : points ≠ []).
  { intros ->. destruct Hmin as [H _]. simpl in H. lia. }
  destruct (leftmost_first_min points Hnil) as (left' & Hl & Hmin').
  destruct (rightmost_first_max points Hnil) as (right' & Hr & Hmax').
  rewrite (first_min_x_unique points left left' Hmin Hmin').
  rewrite (first_max_x_unique points right right' Hmax Hmax').
  assert (Hne' : left' ≠ right').
  { rewrite <- (first_min_x_unique points left left' Hmin Hmin').
    now rewrite <- (first_max_x_unique points right right' Hmax Hmax'). }
  clear Hmin Hmax Hne left right.
  destruct Hmin' as [Hlt _], Hmax' as [Hrt _].
  split; [assumption|]. split; [assumption|].
  set (n := length points) in *.
  set (c1 := foldl (λ c i, label_upper i c) (replicate n EmptyString) (arc n left' right')).
  set (c2 := foldl (λ c i, label_lower left' right' i c) c1 (arc n right' left')).
  assert (Hlen1 : length c1 = n).
  { unfold c1. rewrite foldl_g_length; [apply length_replicate|].
    intros. apply length_insert. }
  assert (Hlen2 : length c2 = n).
  { unfold c2. rewrite foldl_g_length; [assumption|].
    intros i chain. unfold label_lower.
    destruct (decide _); [apply length_insert | reflexivity]. }
  assert (Hup : ∀ j, j ∈ arc n left' right' → c1 !! j = Some UPPER).
  { intros j Hj. unfold c1. rewrite foldl_label_upper.
    - rewrite length_replicate. destruct (decide _); [|contradiction].
      apply elem_of_arc in Hj; [|assumption..].
      destruct (decide _); [reflexivity | lia].
    - rewrite length_replicate. now apply arc_in_range. }
  assert (Hlow : ∀ j, c2 !! j
      = if decide (j ∈ arc n right' left' ∧ j ≠ left' ∧ j ≠ right')
        then Some LOWER else c1 !! j).
  { intros j. unfold c2. apply foldl_label_lower.
    rewrite Hlen1. now apply arc_in_range. }
  assert (Hfc : ∀ fuel, (n ≤ fuel)%nat → find_chains_fuel fuel points = Ok c2).
  { intros fuel Hfuel. now apply find_chains_fuel_arc. }
  exists c2. split; [apply Hfc; reflexivity|]. split; [assumption|].
  split; [assumption|]. split; [|split].
  - rewrite Hlow. destruct (decide _) as [(_ & H & _)|_]; [congruence|].
    apply Hup, elem_of_arc; lia.
  - rewrite Hlow. destruct (decide _) as [(_ & _ & H)|_]; [congruence|].
    apply Hup, elem_of_arc; lia.
  - apply Forall_lookup. intros j label Hj.
    assert (Hjn : (j < n)%nat) by (rewrite <- Hlen2; eapply lookup_lt_Some; eassumption).
    rewrite Hlow in Hj. destruct (decide _) as [_|Hn].
    + right. congruence.
    + left. destruct (arc_cover n left' right' j Hlt Hrt Hne' Hjn) as [Hin|Hin].
      * rewrite (Hup j Hin) in Hj. congruence.
      * assert (j = left' ∨ j = right') as [->| ->].
        { destruct (decide (j = left')); [now left|].
          destruct (decide (j = right')); [now right|].
          exfalso. apply Hn. now repeat split. }
        -- rewrite Hup in Hj by (apply elem_of_arc; lia). congruence.
        -- rewrite Hup in Hj by (apply elem_of_arc; lia). congruence.
Qed.

(** ** The sweep order *)

Lemma insert_sorted_perm {A : Type} (a : (Z * Z) * A) (l : list ((Z * Z) * A)) :
  PyList.insert_sorted a l ≡ₚ a :: l.
Proof.
  induction l as [|b l IH]; simpl; [reflexivity|].
  destruct (PyList.key_le a.1 b.1); [reflexivity|].
  rewrite IH. apply Permutation_swap.
Qed.

Lemma stable_sort_perm {A : Type} (l : list ((Z * Z) * A)) : PyList.stable_sort l ≡ₚ l.
Proof.
  induction l as [|a l IH]; simpl; [reflexivity|].
  now rewrite insert_sorted_perm, IH.
Qed.

(** The sort is a sort by the keys, and it is stable: the elements of one key
    keep the order they have in the input, as with Python's [sorted]. *)

Lemma key_le_total (a b : Z * Z) : PyList.key_le a b = false → PyList.key_le b a = true.
Proof.
  unfold PyList.key_le. destruct a as [a1 a2], b as [b1 b2]. simpl. intros H.
  apply orb_false_iff in H as [H1 H2]. apply Z.ltb_ge in H1.
  apply andb_false_iff in H2 as [H2|H2].
  - apply Z.eqb_neq in H2. apply orb_true_iff. left. apply Z.ltb_lt. lia.
  - apply Z.leb_gt in H2. destruct (Z.eqb_spec b1 a1) as [E|E].
    + apply orb_true_iff. right. simpl. apply Z.leb_le. lia.
    + apply orb_true_iff. left. apply Z.ltb_lt. lia.
Qed.

Lemma key_le_trans (a b c : Z * Z) :
  PyList.key_le a b = true → PyList.key_le b c = true → PyList.key_le a c = true.
Proof.
  unfold PyList.key_le. destruct a as [a1 a2], b as [b1 b2], c as [c1 c2]. simpl.
  rewrite !orb_true_iff, !andb_true_iff, !Z.ltb_lt, !Z.eqb_eq, !Z.leb_le. lia.
Qed.

Lemma key_le_false_ne (a b : Z * Z) : PyList.key_le a b = false → a ≠ b.
Proof.
  intros H ->. unfold PyList.key_le in H. destruct b as [b1 b2]. simpl in H.
  apply orb_false_iff in H as [_ H]. apply andb_false_iff in H as [H|H].
  - apply Z.eqb_neq in H. lia.
  - apply Z.leb_gt in H. lia.
Qed.

Lemma insert_sorted_sorted {A : Type} (a : (Z * Z) * A) (l : list ((Z * Z) * A)) :
  StronglySorted (λ d e, PyList.key_le d.1 e.1 = true) l →
  StronglySorted (λ d e, PyList.key_le d.1 e.1 = true) (PyList.insert_sorted a l).
Proof.
  induction 1 as [|b l Hs IH Hb]; simpl.
  - repeat constructor.
  - destruct (PyList.key_le a.1 b.1) eqn:E.
    + constructor; [now constructor|]. constructor; [assumption|].
      eapply Forall_impl; [exact Hb|]. simpl. intros c Hc.
      eapply key_le_trans; eassumption.
    + constructor; [assumption|]. rewrite insert_sorted_perm.
      constructor; [now apply key_le_total | assumption].
Qed.

Lemma stable_sort_sorted {A : Type} (l : list ((Z * Z) * A)) :
  StronglySorted (λ d e, PyList.key_le d.1 e.1 = true) (PyList.stable_sort l).
Proof.
  induction l as [|a l IH]; simpl; [constructor | now apply insert_sorted_sorted].
Qed.

Lemma insert_sorted_filter {A : Type} (k : Z * Z) (a : (Z * Z) * A)
    (l : list ((Z * Z) * A)) :
  filter (λ d, d.1 = k) (PyList.insert_sorted a l) = filter (λ d, d.1 = k) (a :: l).
Proof.
  induction l as [|b l IH]; simpl; [reflexivity|].
  destruct (PyList.key_le a.1 b.1) eqn:E; [reflexivity|].
  rewrite (filter_cons _ b), IH, !(filter_cons _ a), (filter_cons _ b).
  apply key_le_false_ne in E.
  destruct (decide (a.1 = k)), (decide (b.1 = k)); congruence.
Qed.

Lemma stable_sort_stable {A : Type} (k : Z * Z) (l : list ((Z * Z) * A)) :
  filter (λ d, d.1 = k) (PyList.stable_sort l) = filter (λ d, d.1 = k) l.
Proof.
  induction l as [|a l IH]; simpl; [reflexivity|].
  rewrite insert_sorted_filter, !filter_cons, IH. reflexivity.
Qed.

Lemma keys_of_ok {A : Type} (key : A → result (Z * Z)) (l : list A) :
  Forall (λ a, ∃ k, key a = Ok k) l →
  ∃ d, PyList.keys_of key l = Ok d ∧ d.*2 = l.
Proof.
  induction 1 as [|a l [k Hk] _ (d & Hd & Hl)]; simpl.
  - now exists [].
  - rewrite Hk, bind_Ok, Hd, bind_Ok. exists ((k, a) :: d). now rewrite fmap_cons, Hl.
Qed.

Lemma sweep_order_perm (points : list Point) :
  ∃ order, sweep_order points = Ok order ∧ order ≡ₚ seq 0 (length points).
Proof.
  unfold sweep_order, PyList.sorted, PyList.range. rewrite Nat.sub_0_r.
  destruct (keys_of_ok (sweep_key points) (seq 0 (length points))) as (d & -> & Hd).
  - apply Forall_forall. intros i Hi. apply elem_of_seq in Hi.
    unfold sweep_key.
    destruct (PyListFacts.getitem_lt points i) as (p & _ & ->); [lia|].
    now eexists.
  - rewrite bind_Ok. eexists. split; [reflexivity|].
    now rewrite stable_sort_perm, Hd.
Qed.

Lemma sweep_order_ok (points : list Point) :
  ∃ order, sweep_order points = Ok order ∧
    length order = length points ∧ in_range (length points) order.
Proof.
  destruct (sweep_order_perm points) as (order & Ho & Hp).
  exists order. split; [assumption|]. split.
  - rewrite Hp. apply length_seq.
  - unfold in_range. rewrite Hp. apply Forall_forall.
    intros i Hi. apply elem_of_seq in Hi. lia.
Qed.

(** ** The loops of the sweep *)

Lemma getitem_point (points : list Point) (v : nat) :
  (v < length points)%nat → PyList.getitem points v = Ok (points !!! v).
Proof.
  intros Hv. destruct (PyListFacts.getitem_lt points v Hv) as (p & Hp & ->).
  now rewrite (list_lookup_total_correct _ _ _ Hp).
Qed.

Lemma connect_loop_nil fuel points c diagonals :
  connect_loop (S fuel) points c [] diagonals = Ok ([], diagonals).
Proof. reflexivity. Qed.

Lemma connect_loop_spec (points : list Point) (c : nat) :
  (c < length points)%nat →
  ∀ rest fuel b diagonals,
    in_range (length points) rest → (length rest < fuel)%nat →
    connect_loop fuel points c (b :: rest) diagonals
    = Ok ([b], diagonals ++ ((λ v, (points !!! c, points !!! v)) <$> reverse rest)).
Proof.
  intros Hc rest. induction rest as [|v rest IH] using rev_ind;
    intros fuel b diagonals Hr Hfuel; (destruct fuel as [|fuel]; [simpl in Hfuel; lia|]).
  - simpl. now rewrite app_nil_r.
  - apply Forall_app in Hr as [Hr Hv]. apply Forall_inv in Hv.
    rewrite length_app in Hfuel. simpl in Hfuel.
    cbn [connect_loop]. rewrite app_comm_cons.
    destruct (decide _) as [_|Hn]; [|rewrite length_app in Hn; simpl in Hn; lia].
    rewrite PyListFacts.pop_snoc, bind_Ok. cbn beta iota.
    rewrite (getitem_point points c Hc), bind_Ok.
    rewrite (getitem_point points v Hv), bind_Ok.
    rewrite IH by (assumption || lia).
    unfold PyList.append. rewrite reverse_snoc, fmap_cons.
    now rewrite <- app_assoc.
Qed.

Lemma same_chain_loop_spec (points : list Point) (chain : list string)
    (cur_idx : nat) (label : string) :
  (cur_idx < length points)%nat → chain !! cur_idx = Some label →
  ∀ stack fuel diagonals,
    stack ≠ [] → in_range (length points) stack → (length stack ≤ fuel)%nat →
    ∃ base w popped,
      stack = base ++ w :: popped ∧
      same_chain_loop fuel points chain cur_idx stack diagonals
      = Ok (base ++ [w],
            diagonals ++ ((λ a, (points !!! cur_idx, points !!! a))
                            <$> reverse (take (length popped) (w :: popped)))) ∧
      (∀ j a b, (w :: popped) !! j = Some a → (w :: popped) !! S j = Some b →
         ear_test label (orientation (points !!! a) (points !!! b) (points !!! cur_idx))
         = true) ∧
      (base = [] ∨
       ∃ a, last base = Some a ∧
         ear_test label (orientation (points !!! a) (points !!! w) (points !!! cur_idx))
         = false).
Proof.
  intros Hc Hlab stack.
  induction stack as [|b s IH] using rev_ind; intros fuel diagonals Hne Hr Hfuel;
    [congruence|].
  rewrite length_app in Hfuel. simpl in Hfuel.
  destruct fuel as [|fuel]; [lia|].
  apply Forall_app in Hr as [Hr Hb]. apply Forall_inv in Hb.
  destruct s as [|a s' _] using rev_ind.
  - (* one element on the stack *)
    exists [], b, []. simpl. rewrite app_nil_r.
    repeat split; [| now left]. intros j a b' _ H. now destruct j.
  - pose proof Hr as Hr'.
    apply Forall_app in Hr' as [Hs' Ha]. apply Forall_inv in Ha.
    cbn [same_chain_loop].
    destruct (decide _) as [_|Hn]; [|rewrite !length_app in Hn; simpl in Hn; lia].
    rewrite <- (app_assoc s' [a] [b]).
    change ([a] ++ [b]) with [a; b].
    rewrite PyListFacts.getitem_back_second, bind_Ok.
    replace (s' ++ [a; b]) with ((s' ++ [a]) ++ [b]) by now rewrite <- app_assoc.
    rewrite PyListFacts.getitem_back_top, bind_Ok.
    rewrite (getitem_point points a Ha), bind_Ok.
    rewrite (getitem_point points b Hb), bind_Ok.
    rewrite (getitem_point points cur_idx Hc), bind_Ok. cbv zeta.
    rewrite (PyListFacts.getitem_Some _ _ _ Hlab), bind_Ok.
    destruct (ear_test label _) eqn:Htest.
    + (* the top is popped *)
      rewrite PyListFacts.pop_snoc, bind_Ok. cbn beta iota.
      rewrite !bind_Ok.
      destruct (IH fuel (PyList.append diagonals (points !!! cur_idx, points !!! a)))
        as (base & w & popped & Hs & Hrun & Hpairs & Hstop).
      { now destruct s'. }
      { assumption. }
      { rewrite length_app in Hfuel |- *. simpl in *. lia. }
      assert (Hseg : ∃ seg, w :: popped = seg ++ [a]).
      { destruct popped as [|z popped _] using rev_ind.
        - apply app_inj_tail in Hs as [_ ->]. now exists [].
        - rewrite app_comm_cons, app_assoc in Hs.
          apply app_inj_tail in Hs as [_ ->]. exists (w :: popped).
          apply app_comm_cons. }
      destruct Hseg as [seg Hseg].
      assert (Hlen : length seg = length popped).
      { apply (f_equal length) in Hseg. rewrite length_app in Hseg.
        simpl in Hseg. lia. }
      exists base, w, (popped ++ [b]). split; [|split; [|split]].
      * rewrite Hs. now rewrite <- app_assoc.
      * assert (E1 : take (length popped) (w :: popped) = seg).
        { rewrite Hseg, <- Hlen. apply take_app_length. }
        assert (E2 : take (length (popped ++ [b])) (w :: popped ++ [b]) = seg ++ [a]).
        { rewrite app_comm_cons, Hseg, length_app, <- Hlen. simpl length.
          replace (length seg + 1)%nat with (length (seg ++ [a]))
            by (rewrite length_app; reflexivity).
          apply take_app_length. }
        rewrite Hrun, E1, E2, reverse_snoc, fmap_cons. unfold PyList.append.
        now rewrite <- app_assoc.
      * intros j a0 b0 Ha0 Hb0. rewrite app_comm_cons in Ha0, Hb0.
        destruct (decide (S j < length (w :: popped))%nat) as [Hj|Hj].
        -- rewrite lookup_app_l in Ha0 by lia.
           rewrite lookup_app_l in Hb0 by lia. eauto.
        -- assert (HSj : S j = length (w :: popped)).
           { apply lookup_lt_Some in Hb0. rewrite length_app in Hb0.
             simpl in Hb0 |- *. simpl in Hj. lia. }
           rewrite HSj in Hb0. rewrite list_lookup_middle in Hb0 by reflexivity.
           injection Hb0 as <-.
           rewrite lookup_app_l in Ha0 by lia.
           rewrite Hseg in Ha0, HSj. rewrite length_app in HSj. simpl in HSj.
           rewrite list_lookup_middle in Ha0 by lia.
           injection Ha0 as <-. exact Htest.
      * exact Hstop.
    + (* the loop is left at the first triple that fails the test *)
      exists (s' ++ [a]), b, []. split; [reflexivity|]. split; [|split].
      * simpl. now rewrite app_nil_r.
      * intros j a0 b0 _ H. now destruct j.
      * right. exists a. split; [apply last_snoc | exact Htest].
Qed.

(** ** More fuel does not change a result *)

Ltac bind_case H :=
  match type of H with
  | context [mbind _ ?c] =>
      destruct c as [?| |] eqn:?; cbn [mbind result_mbind result_bind] in H |- *;
      try discriminate H
  end.

Lemma walk_mono body fuel : ∀ fuel' n stop chain i r,
  walk body fuel n stop chain i = Ok r → (fuel ≤ fuel')%nat →
  walk body fuel' n stop chain i = Ok r.
Proof.
  induction fuel as [|fuel IH]; intros fuel' n stop chain i r H Hle; [discriminate|].
  destruct fuel' as [|fuel']; [lia|]. cbn [walk] in *.
  bind_case H. destruct (decide (i = stop)); [assumption|].
  bind_case H. apply IH; [assumption | lia].
Qed.

Lemma find_chains_fuel_mono fuel fuel' points r :
  find_chains_fuel fuel points = Ok r → (fuel ≤ fuel')%nat →
  find_chains_fuel fuel' points = Ok r.
Proof.
  unfold find_chains_fuel. intros H Hle.
  bind_case H. bind_case H. cbv zeta in *.
  rewrite upper_walk_walk in *. bind_case H.
  rewrite lower_walk_walk in *.
  rewrite (walk_mono _ _ fuel' _ _ _ _ _ Heqr2 Hle).
  cbn [mbind result_mbind result_bind].
  rewrite lower_walk_walk.
  exact (walk_mono _ _ fuel' _ _ _ _ _ H Hle).
Qed.

Lemma connect_loop_mono fuel : ∀ fuel' points c stack diagonals r,
  connect_loop fuel points c stack diagonals = Ok r → (fuel ≤ fuel')%nat →
  connect_loop fuel' points c stack diagonals = Ok r.
Proof.
  induction fuel as [|fuel IH]; intros fuel' points c stack diagonals r H Hle;
    [discriminate|].
  destruct fuel' as [|fuel']; [lia|]. cbn [connect_loop] in *.
  destruct (decide _); [|assumption].
  bind_case H. destruct a as [v stack']. cbn beta iota in *.
  bind_case H. bind_case H. apply IH; [assumption | lia].
Qed.

Lemma same_chain_loop_mono fuel : ∀ fuel' points chain cur_idx stack diagonals r,
  same_chain_loop fuel points chain cur_idx stack diagonals = Ok r → (fuel ≤ fuel')%nat →
  same_chain_loop fuel' points chain cur_idx stack diagonals = Ok r.
Proof.
  induction fuel as [|fuel IH]; intros fuel' points chain cur_idx stack diagonals r H Hle;
    [discriminate|].
  destruct fuel' as [|fuel']; [lia|]. cbn [same_chain_loop] in *.
  destruct (decide _); [|assumption].
  do 5 bind_case H. cbv zeta in *. bind_case H.
  destruct (ear_test _ _); [|assumption].
  bind_case H. destruct a5 as [v stack'].
  cbn beta iota in *. cbn [mbind result_mbind result_bind] in *.
  apply IH; [assumption | lia].
Qed.

Lemma sweep_step_mono fuel fuel' points chain order i st r :
  sweep_step fuel points chain order i st = Ok r → (fuel ≤ fuel')%nat →
  sweep_step fuel' points chain order i st = Ok r.
Proof.
  unfold sweep_step. intros H Hle. do 4 bind_case H.
  destruct (decide _).
  - unfold chain_change in *. bind_case H.
    erewrite connect_loop_mono by eassumption. exact H.
  - unfold same_chain in *. bind_case H.
    erewrite same_chain_loop_mono by eassumption. exact H.
Qed.

Lemma sweep_loop_mono fuel fuel' points chain order idxs : ∀ st r,
  sweep_loop fuel points chain order idxs st = Ok r → (fuel ≤ fuel')%nat →
  sweep_loop fuel' points chain order idxs st = Ok r.
Proof.
  induction idxs as [|i idxs IH]; intros st r H Hle; [assumption|].
  cbn [sweep_loop] in *. bind_case H.
  erewrite sweep_step_mono by eassumption. cbn [mbind result_mbind result_bind].
  now apply IH.
Qed.

Lemma last_vertex_mono fuel fuel' points order st r :
  last_vertex fuel points order st = Ok r → (fuel ≤ fuel')%nat →
  last_vertex fuel' points order st = Ok r.
Proof.
  unfold last_vertex. intros H Hle. bind_case H. bind_case H.
  eapply connect_loop_mono; eassumption.
Qed.

Lemma sweep_fuel_mono fuel fuel' points r :
  sweep_fuel fuel points = Ok r → (fuel ≤ fuel')%nat → sweep_fuel fuel' points = Ok r.
Proof.
  unfold sweep_fuel. intros H Hle. cbv zeta in *. bind_case H.
  erewrite find_chains_fuel_mono by eassumption. cbn [mbind result_mbind result_bind].
  do 3 bind_case H. bind_case H.
  erewrite sweep_loop_mono by eassumption. exact H.
Qed.

Lemma triangulate_fuel_mono fuel fuel' points r :
  triangulate_fuel fuel points = Ok r → (fuel ≤ fuel')%nat →
  triangulate_fuel fuel' points = Ok r.
Proof.
  unfold triangulate_fuel. intros H Hle. bind_case H.
  erewrite sweep_fuel_mono by eassumption. cbn [mbind result_mbind result_bind].
  destruct a as [[chain order] st]. bind_case H.
  erewrite last_vertex_mono by eassumption. exact H.
Qed.

(** ** The two branches of a sweep step *)

Lemma chain_change_spec fuel points order i cur_idx prev b rest diagonals :
  (cur_idx < length points)%nat → order !! (i - 1)%nat = Some prev →
  in_range (length points) rest → (length rest < fuel)%nat →
  chain_change fuel points order i cur_idx (b :: rest, diagonals)
  = Ok ([prev; cur_idx],
        diagonals ++ ((λ v, (points !!! cur_idx, points !!! v)) <$> reverse rest)).
Proof.
  intros Hc Hprev Hr Hfuel. unfold chain_change. cbn [fst snd].
  rewrite connect_loop_spec by assumption. rewrite bind_Ok. cbn beta iota.
  change [b] with ([] ++ [b]). rewrite PyListFacts.pop_snoc, bind_Ok. cbn beta iota.
  rewrite (PyListFacts.getitem_Some _ _ _ Hprev), bind_Ok. reflexivity.
Qed.

Lemma same_chain_spec fuel points chain cur_idx label stack diagonals :
  (cur_idx < length points)%nat → chain !! cur_idx = Some label →
  stack ≠ [] → in_range (length points) stack → (length stack ≤ fuel)%nat →
  ∃ base w popped,
    stack = base ++ w :: popped ∧
    same_chain fuel points chain cur_idx (stack, diagonals)
    = Ok (base ++ [w; cur_idx],
          diagonals ++ ((λ a, (points !!! cur_idx, points !!! a))
                          <$> reverse (take (length popped) (w :: popped)))) ∧
    (∀ j a b, (w :: popped) !! j = Some a → (w :: popped) !! S j = Some b →
       ear_test label (orientation (points !!! a) (points !!! b) (points !!! cur_idx))
       = true) ∧
    (base = [] ∨
     ∃ a, last base = Some a ∧
       ear_test label (orientation (points !!! a) (points !!! w) (points !!! cur_idx))
       = false).
Proof.
  intros Hc Hlab Hne Hr Hfuel.
  destruct (same_chain_loop_spec points chain cur_idx label Hc Hlab stack fuel diagonals
              Hne Hr Hfuel) as (base & w & popped & Hs & Hrun & Hpairs & Hstop).
  exists base, w, popped. split; [assumption|]. split; [|split; assumption].
  unfold same_chain. cbn [fst snd]. rewrite Hrun, bind_Ok. cbn beta iota.
  unfold PyList.append. now rewrite <- app_assoc.
Qed.

Lemma in_range_lookup n (l : list nat) i v : in_range n l → l !! i = Some v → (v < n)%nat.
Proof. intros Hr Hv. exact (proj1 (Forall_lookup _ l) Hr i v Hv). Qed.

Lemma in_range_last n (l : list nat) v : in_range n l → last l = Some v → (v < n)%nat.
Proof.
  intros Hr Hv. rewrite last_lookup in Hv. eapply in_range_lookup; eassumption.
Qed.

Lemma last_is_Some {A : Type} (l : list A) : l ≠ [] → ∃ v, last l = Some v.
Proof.
  destruct l as [|a l _] using rev_ind; [congruence|].
  intros _. exists a. apply last_snoc.
Qed.

(** What a sweep step keeps true: the stack holds at least two valid
    indices, grows by at most one, and the stack and the diagonals together
    grow by exactly one. *)
Lemma sweep_step_inv fuel points chain order i stack diagonals :
  length chain = length points → in_range (length points) order →
  (1 ≤ i < length order)%nat →
  stack ≠ [] → in_range (length points) stack → (length stack ≤ fuel)%nat →
  ∃ stack' diagonals',
    sweep_step fuel points chain order i (stack, diagonals) = Ok (stack', diagonals') ∧
    in_range (length points) stack' ∧
    (2 ≤ length stack' ≤ length stack + 1)%nat ∧
    (length stack' + length diagonals' = length stack + length diagonals + 1)%nat.
Proof.
  intros Hchain Ho Hi Hne Hr Hfuel.
  destruct (lookup_lt_is_Some_2 order i) as [cur Hcur]; [lia|].
  destruct (lookup_lt_is_Some_2 order (i - 1)) as [prev Hprev]; [lia|].
  destruct (last_is_Some stack Hne) as [top Htop].
  pose proof (in_range_lookup _ _ _ _ Ho Hcur) as Hc.
  pose proof (in_range_lookup _ _ _ _ Ho Hprev) as Hp.
  pose proof (in_range_last _ _ _ Hr Htop) as Ht.
  destruct (lookup_lt_is_Some_2 chain cur) as [lc Hlc]; [lia|].
  destruct (lookup_lt_is_Some_2 chain top) as [lt Hlt]; [lia|].
  unfold sweep_step. cbn [fst].
  rewrite (PyListFacts.getitem_Some _ _ _ Hcur), bind_Ok.
  rewrite (PyListFacts.getitem_back_last _ _ Htop), bind_Ok.
  rewrite (PyListFacts.getitem_Some _ _ _ Hlc), bind_Ok.
  rewrite (PyListFacts.getitem_Some _ _ _ Hlt), bind_Ok.
  destruct (decide (lc ≠ lt)) as [Hd|Hs].
  - destruct stack as [|b rest]; [congruence|].
    apply Forall_cons in Hr as [Hb Hr]. simpl in Hfuel.
    rewrite (chain_change_spec fuel points order i cur prev b rest diagonals)
      by (assumption || lia).
    eexists _, _. split; [reflexivity|]. split; [|split].
    + repeat constructor; assumption.
    + simpl. lia.
    + rewrite length_app, length_fmap, length_reverse. simpl. lia.
  - destruct (same_chain_spec fuel points chain cur lc stack diagonals Hc Hlc Hne Hr Hfuel)
      as (base & w & popped & Hst & Hrun & _ & _).
    rewrite Hrun. eexists _, _. split; [reflexivity|].
    assert (Hlen : length stack = (length base + S (length popped))%nat).
    { rewrite Hst, length_app. reflexivity. }
    rewrite Hst in Hr. apply Forall_app in Hr as [Hbase Hw].
    apply Forall_cons in Hw as [Hw _].
    split; [|split].
    + apply Forall_app. split; [assumption|]. repeat constructor; assumption.
    + rewrite length_app. simpl. lia.
    + rewrite !length_app, length_fmap, length_reverse, length_take. simpl. lia.
Qed.

Lemma sweep_loop_inv fuel points chain order idxs : ∀ stack diagonals,
  length chain = length points → in_range (length points) order →
  Forall (λ i, 1 ≤ i < length order)%nat idxs →
  (2 ≤ length stack)%nat → in_range (length points) stack →
  (length stack + length idxs ≤ fuel)%nat →
  ∃ stack' diagonals',
    sweep_loop fuel points chain order idxs (stack, diagonals) = Ok (stack', diagonals') ∧
    in_range (length points) stack' ∧
    (2 ≤ length stack')%nat ∧
    (length stack' + length diagonals'
     = length stack + length diagonals + length idxs)%nat.
Proof.
  induction idxs as [|i idxs IH]; intros stack diagonals Hchain Ho Hidx Hlen Hr Hfuel.
  - exists stack, diagonals. simpl. repeat split; (assumption || lia).
  - apply Forall_cons in Hidx as [Hi Hidx]. simpl in Hfuel. cbn [sweep_loop].
    destruct (sweep_step_inv fuel points chain order i stack diagonals)
      as (stack1 & diagonals1 & Hstep & Hr1 & Hlen1 & Hsum1);
      try (assumption || lia).
    { intros ->. simpl in Hlen. lia. }
    rewrite Hstep, bind_Ok.
    destruct (IH stack1 diagonals1) as (stack2 & diagonals2 & Hloop & Hr2 & Hlen2 & Hsum2);
      try (assumption || lia).
    exists stack2, diagonals2. simpl. repeat split; (assumption || lia).
Qed.

(** ** The whole sweep *)

Lemma range_bounds lo hi : Forall (λ i, lo ≤ i < hi)%nat (PyList.range lo hi).
Proof.
  apply Forall_forall. intros i Hi. unfold PyList.range in Hi.
  apply elem_of_seq in Hi. lia.
Qed.

Lemma sweep_fuel_inv fuel points :
  (2 ≤ length points)%nat → (length points ≤ fuel)%nat →
  ∃ chain order stack diagonals,
    sweep_fuel fuel points = Ok (chain, order, (stack, diagonals)) ∧
    length order = length points ∧ in_range (length points) order ∧
    in_range (length points) stack ∧ (2 ≤ length stack)%nat ∧
    (length stack + length diagonals = 2 + (length points - 3))%nat.
Proof.
  intros Hn Hfuel.
  destruct (find_chains_fuel_ok points) as (chain & Hlc & Hchain).
  { intros ->. simpl in Hn. lia. }
  destruct (sweep_order_ok points) as (order & Horder & Hlo & Hro).
  destruct (lookup_lt_is_Some_2 order 0) as [o0 Ho0]; [lia|].
  destruct (lookup_lt_is_Some_2 order 1) as [o1 Ho1]; [lia|].
  destruct (sweep_loop_inv fuel points chain order
              (PyList.range 2 (length points - 1)) [o0; o1] [])
    as (stack & diagonals & Hloop & Hr & Hlen & Hsum); try assumption.
  - eapply Forall_impl; [apply range_bounds|]. simpl. intros i Hi. lia.
  - simpl. lia.
  - repeat constructor; eapply in_range_lookup; eassumption.
  - rewrite PyListFacts.range_length. simpl. lia.
  - exists chain, order, stack, diagonals.
    split; [|rewrite PyListFacts.range_length in Hsum; simpl in Hsum;
             repeat split; (assumption || lia)].
    unfold sweep_fuel. cbv zeta.
    rewrite (Hchain fuel Hfuel), bind_Ok, Horder, bind_Ok.
    rewrite (PyListFacts.getitem_Some _ _ _ Ho0), bind_Ok.
    rewrite (PyListFacts.getitem_Some _ _ _ Ho1), bind_Ok.
    unfold PyList.append. simpl app. now rewrite Hloop.
Qed.

Lemma last_vertex_spec fuel points order last_idx b mid t diagonals :
  last order = Some last_idx → (last_idx < length points)%nat →
  in_range (length points) mid → (length mid < fuel)%nat →
  last_vertex fuel points order (b :: mid ++ [t], diagonals)
  = Ok ([b], diagonals ++ ((λ v, (points !!! last_idx, points !!! v)) <$> reverse mid)).
Proof.
  intros Hlast Hl Hr Hfuel. unfold last_vertex. cbn [fst snd].
  rewrite (PyListFacts.getitem_back_last _ _ Hlast), bind_Ok.
  destruct (decide (b :: mid ++ [t] ≠ [])) as [_|Hn]; [|exfalso; apply Hn; discriminate].
  rewrite app_comm_cons, PyListFacts.pop_snoc, !bind_Ok. cbn beta iota.
  now apply connect_loop_spec.
Qed.

Lemma two_ends {A : Type} (l : list A) :
  (2 ≤ length l)%nat → ∃ b mid t, l = b :: mid ++ [t].
Proof.
  destruct l as [|b l]; simpl; [lia|].
  destruct l as [|t mid _] using rev_ind; simpl; [lia|].
  intros _. now exists b, mid, t.
Qed.

(** The state at the end of the sweep loop and what the handling of the
    last vertex makes of it. *)
Lemma triangulate_fuel_run fuel points :
  (2 ≤ length points)%nat → (length points ≤ fuel)%nat →
  ∃ chain order last_idx b mid t diagonals,
    sweep_fuel fuel points = Ok (chain, order, (b :: mid ++ [t], diagonals)) ∧
    last order = Some last_idx ∧
    in_range (length points) mid ∧
    (length mid + length diagonals = length points - 3)%nat ∧
    last_vertex fuel points order (b :: mid ++ [t], diagonals)
    = Ok ([b], diagonals ++ ((λ v, (points !!! last_idx, points !!! v)) <$> reverse mid)) ∧
    triangulate_fuel fuel points
    = Ok (diagonals ++ ((λ v, (points !!! last_idx, points !!! v)) <$> reverse mid)).
Proof.
  intros Hn Hfuel.
  destruct (sweep_fuel_inv fuel points Hn Hfuel)
    as (chain & order & stack & diagonals & Hsweep & Hlo & Hro & Hr & Hlen & Hsum).
  destruct (two_ends stack Hlen) as (b & mid & t & ->).
  destruct (last_is_Some order) as [last_idx Hlast].
  { intros ->. simpl in Hlo. lia. }
  pose proof (in_range_last _ _ _ Hro Hlast) as Hl.
  apply Forall_cons in Hr as [Hb Hr]. apply Forall_app in Hr as [Hmid Ht].
  simpl in Hsum, Hlen. rewrite length_app in Hsum, Hlen. simpl in Hsum, Hlen.
  assert (Hmf : (length mid < fuel)%nat).
  { destruct (decide (3 ≤ length points)%nat); lia. }
  pose proof (last_vertex_spec fuel points order last_idx b mid t diagonals
                Hlast Hl Hmid Hmf) as Hfin.
  exists chain, order, last_idx, b, mid, t, diagonals.
  repeat split; try assumption; [lia|].
  unfold triangulate_fuel. rewrite Hsweep, bind_Ok. cbn beta iota.
  now rewrite Hfin.
Qed.

Lemma triangulate_fuel_count fuel points :
  (2 ≤ length points)%nat → (length points ≤ fuel)%nat →
  ∃ diagonals,
    triangulate_fuel fuel points = Ok diagonals ∧
    length diagonals = (length points - 3)%nat.
Proof.
  intros Hn Hfuel.
  destruct (triangulate_fuel_run fuel points Hn Hfuel)
    as (chain & order & last_idx & b & mid & t & diagonals & _ & _ & _ & Hsum & _ & Htri).
  eexists. split; [exact Htri|].
  rewrite length_app, length_fmap, length_reverse. lia.
Qed.

(** The fuel given by [triangulate_x_monotone] is enough, and more fuel
    gives the same diagonals. *)
Lemma triangulate_fuel_enough points :
  (2 ≤ length points)%nat →
  ∃ diagonals,
    triangulate_x_monotone points = Ok diagonals ∧
    length diagonals = (length points - 3)%nat ∧
    ∀ fuel, (length points ≤ fuel)%nat → triangulate_fuel fuel points = Ok diagonals.
Proof.
  intros Hn.
  destruct (triangulate_fuel_count (length points) points Hn (Nat.le_refl _))
    as (diagonals & Htri & Hlen).
  exists diagonals. split; [exact Htri|]. split; [exact Hlen|].
  intros fuel Hfuel. eapply triangulate_fuel_mono; eassumption.
Qed.

(** ** The steps of the sweep *)

(** C4: in the chain-change case every vertex of the stack but the bottom
    one gets a diagonal to [cur], from the top of the stack downwards, and
    the stack is left as [[prev; cur]] where [prev] precedes [cur] in the
    sweep order. *)
Theorem chain_transition_step fuel points chain order i cur_idx top_idx prev
    (b : nat) (rest : list nat) diagonals (lc lt : string) :
  order !! i = Some cur_idx → order !! (i - 1)%nat = Some prev →
  last (b :: rest) = Some top_idx →
  chain !! cur_idx = Some lc → chain !! top_idx = Some lt → lc ≠ lt →
  (cur_idx < length points)%nat → in_range (length points) rest →
  (length rest < fuel)%nat →
  sweep_step fuel points chain order i (b :: rest, diagonals)
  = Ok ([prev; cur_idx],
        diagonals ++ ((λ v, (points !!! cur_idx, points !!! v)) <$> reverse rest)).
Proof.
  intros Hcur Hprev Htop Hlc Hlt Hne Hc Hr Hfuel. unfold sweep_step. cbn [fst].
  rewrite (PyListFacts.getitem_Some _ _ _ Hcur), bind_Ok.
  rewrite (PyListFacts.getitem_back_last _ _ Htop), bind_Ok.
  rewrite (PyListFacts.getitem_Some _ _ _ Hlc), bind_Ok.
  rewrite (PyListFacts.getitem_Some _ _ _ Hlt), bind_Ok.
  destruct (decide (lc ≠ lt)) as [_|Hn]; [|contradiction].
  now apply chain_change_spec.
Qed.

Lemma chain_transition_step_crown :
  sweep_step 6 crown [UPPER; UPPER; UPPER; UPPER; UPPER; LOWER] [0; 1; 2; 5; 3; 4]%nat 3
    ([0; 1; 2]%nat, [])
  = Ok ([2; 5]%nat,
        [(mkPoint 2 (-1), mkPoint 2 3); (mkPoint 2 (-1), mkPoint 1 2)]).
Proof.
  apply (chain_transition_step 6 crown [UPPER; UPPER; UPPER; UPPER; UPPER; LOWER]
           [0; 1; 2; 5; 3; 4]%nat 3 5 2 2 0 [1; 2]%nat [] LOWER UPPER).
  - reflexivity.
  - reflexivity.
  - reflexivity.
  - reflexivity.
  - reflexivity.
  - discriminate.
  - simpl. lia.
  - repeat constructor; simpl; lia.
  - simpl. lia.
Defined.

(** C2, as the program has it: in the same-chain case the stack splits into
    [base ++ w :: popped].  The elements of [popped] are popped from the top
    downwards, each one because the triple (second from top, top, [cur])
    passes the test (left turn on UPPER, right turn on LOWER); the diagonal
    emitted at a pop joins [cur] to the element below the popped one, which
    is the new top.  The loop is left with [w] on top when [w] is the only
    element or the triple below fails the test, and [cur] is pushed. *)
Theorem same_chain_step fuel points chain order i cur_idx top_idx (label : string)
    (stack : list nat) diagonals :
  order !! i = Some cur_idx → last stack = Some top_idx →
  chain !! cur_idx = Some label → chain !! top_idx = Some label →
  (cur_idx < length points)%nat → in_range (length points) stack →
  (length stack ≤ fuel)%nat →
  ∃ base w popped,
    stack = base ++ w :: popped ∧
    sweep_step fuel points chain order i (stack, diagonals)
    = Ok (base ++ [w; cur_idx],
          diagonals ++ ((λ a, (points !!! cur_idx, points !!! a))
                          <$> reverse (take (length popped) (w :: popped)))) ∧
    (∀ j a b, (w :: popped) !! j = Some a → (w :: popped) !! S j = Some b →
       ear_test label (orientation (points !!! a) (points !!! b) (points !!! cur_idx))
       = true) ∧
    (base = [] ∨
     ∃ a, last base = Some a ∧
       ear_test label (orientation (points !!! a) (points !!! w) (points !!! cur_idx))
       = false).
Proof.
  intros Hcur Htop Hlc Hlt Hc Hr Hfuel.
  assert (Hne : stack ≠ []) by (intros ->; discriminate).
  destruct (same_chain_spec fuel points chain cur_idx label stack diagonals
              Hc Hlc Hne Hr Hfuel) as (base & w & popped & Hst & Hrun & Hpairs & Hstop).
  exists base, w, popped. split; [assumption|]. split; [|split; assumption].
  unfold sweep_step. cbn [fst].
  rewrite (PyListFacts.getitem_Some _ _ _ Hcur), bind_Ok.
  rewrite (PyListFacts.getitem_back_last _ _ Htop), bind_Ok.
  rewrite (PyListFacts.getitem_Some _ _ _ Hlc), bind_Ok.
  rewrite (PyListFacts.getitem_Some _ _ _ Hlt), bind_Ok.
  destruct (decide (label ≠ label)) as [Hn|_]; [congruence|].
  exact Hrun.
Qed.

Lemma same_chain_step_trapezoid :
  ∃ base w popped,
    [0; 1]%nat = base ++ w :: popped ∧
    sweep_step 4 trapezoid [UPPER; UPPER; UPPER; UPPER] [0; 1; 2; 3]%nat 2 ([0; 1]%nat, [])
    = Ok (base ++ [w; 2%nat],
          [] ++ ((λ a, (trapezoid !!! 2%nat, trapezoid !!! a))
                   <$> reverse (take (length popped) (w :: popped)))) ∧
    (∀ j a b, (w :: popped) !! j = Some a → (w :: popped) !! S j = Some b →
       ear_test UPPER
         (orientation (trapezoid !!! a) (trapezoid !!! b) (trapezoid !!! 2%nat))
       = true) ∧
    (base = [] ∨
     ∃ a, last base = Some a ∧
       ear_test UPPER
         (orientation (trapezoid !!! a) (trapezoid !!! w) (trapezoid !!! 2%nat))
       = false).
Proof.
  apply (same_chain_step 4 trapezoid [UPPER; UPPER; UPPER; UPPER] [0; 1; 2; 3]%nat
           2 2 1 UPPER [0; 1]%nat []).
  - reflexivity.
  - reflexivity.
  - reflexivity.
  - reflexivity.
  - simpl. lia.
  - repeat constructor; simpl; lia.
  - simpl. lia.
Defined.

(** C2 as it is worded fails on the trapezoid: at the third vertex of the
    sweep the stack is [[0; 1]], the vertex and the top are on the same
    chain and the triple passes the test, so the top 1 is popped; the one
    diagonal emitted joins the vertex to 0, the element below the popped
    one, and no diagonal joins it to the popped element. *)
Lemma same_chain_diagonal_misses_popped :
  let chain := [UPPER; UPPER; UPPER; UPPER] in
  let cur := trapezoid !!! 2%nat in
  let popped := trapezoid !!! 1%nat in
  [UPPER; UPPER; UPPER; UPPER] !! 2%nat = [UPPER; UPPER; UPPER; UPPER] !! 1%nat ∧
  PyList.pop [0; 1]%nat = Ok (1%nat, [0%nat]) ∧
  ear_test UPPER (orientation (trapezoid !!! 0%nat) popped cur) = true ∧
  ∃ diagonals,
    sweep_step 4 trapezoid chain [0; 1; 2; 3]%nat 2 ([0; 1]%nat, [])
    = Ok ([0; 2]%nat, diagonals) ∧
    diagonals = [(cur, trapezoid !!! 0%nat)] ∧
    ((cur, popped) ∉ diagonals) ∧ ((popped, cur) ∉ diagonals).
Proof.
  cbv zeta. split; [reflexivity|]. split; [reflexivity|]. split; [reflexivity|].
  eexists. split; [vm_compute; reflexivity|]. split; [reflexivity|].
  split; intros H; apply list_elem_of_singleton in H; discriminate H.
Qed.

(** C5: when the sweep loop is over, the stack is [b :: mid ++ [t]].  The
    top [t] is popped and gets no diagonal, the elements of [mid] are popped
    from the top downwards and each gets a diagonal from the last vertex of
    the sweep order, and the bottom [b] stays on the stack and gets none. *)
Theorem last_vertex_handling fuel points :
  (2 ≤ length points)%nat → (length points ≤ fuel)%nat →
  ∃ chain order last_idx b mid t diagonals,
    sweep_fuel fuel points = Ok (chain, order, (b :: mid ++ [t], diagonals)) ∧
    last order = Some last_idx ∧
    last_vertex fuel points order (b :: mid ++ [t], diagonals)
    = Ok ([b], diagonals ++ ((λ v, (points !!! last_idx, points !!! v)) <$> reverse mid)) ∧
    triangulate_fuel fuel points
    = Ok (diagonals ++ ((λ v, (points !!! last_idx, points !!! v)) <$> reverse mid)).
Proof.
  intros Hn Hfuel.
  destruct (triangulate_fuel_run fuel points Hn Hfuel)
    as (chain & order & last_idx & b & mid & t & diagonals
        & Hsweep & Hlast & _ & _ & Hfin & Htri).
  now exists chain, order, last_idx, b, mid, t, diagonals.
Qed.

Lemma last_vertex_handling_pentagon :
  (2 ≤ length pentagon)%nat ∧ (length pentagon ≤ 5)%nat ∧
  ∃ chain order last_idx b mid t diagonals,
    sweep_fuel 5 pentagon = Ok (chain, order, (b :: mid ++ [t], diagonals)) ∧
    last order = Some last_idx ∧
    last_vertex 5 pentagon order (b :: mid ++ [t], diagonals)
    = Ok ([b], diagonals
               ++ ((λ v, (pentagon !!! last_idx, pentagon !!! v)) <$> reverse mid)) ∧
    triangulate_fuel 5 pentagon
    = Ok (diagonals ++ ((λ v, (pentagon !!! last_idx, pentagon !!! v)) <$> reverse mid)).
Proof.
  split; [simpl; lia|]. split; [simpl; lia|].
  apply (last_vertex_handling 5 pentagon); simpl; lia.
Defined.

(** ** The whole triangulation *)

(** C1: on a list of [n >= 3] points the triangulation returns a list of
    exactly [n - 3] diagonals.  Nothing is asked of the points, so this
    holds in particular of the simple counter-clockwise x-monotone polygons
    with pairwise distinct vertices. *)
Theorem triangulate_diagonal_count points :
  (3 ≤ length points)%nat →
  ∃ diagonals,
    triangulate_x_monotone points = Ok diagonals ∧
    length diagonals = (length points - 3)%nat ∧
    ∀ fuel, (length points ≤ fuel)%nat → triangulate_fuel fuel points = Ok diagonals.
Proof. intros Hn. apply triangulate_fuel_enough. lia. Qed.

Lemma triangulate_diagonal_count_hexagon :
  (3 ≤ length hexagon)%nat ∧
  ∃ diagonals,
    triangulate_x_monotone hexagon = Ok diagonals ∧
    length diagonals = (length hexagon - 3)%nat ∧
    ∀ fuel, (length hexagon ≤ fuel)%nat → triangulate_fuel fuel hexagon = Ok diagonals.
Proof.
  split; [simpl; lia|]. apply (triangulate_diagonal_count hexagon). simpl. lia.
Defined.

(** C8: a list of exactly three points gives no diagonal. *)
Theorem triangle_no_diagonal points :
  length points = 3%nat →
  triangulate_x_monotone points = Ok [] ∧
  ∀ fuel, (3 ≤ fuel)%nat → triangulate_fuel fuel points = Ok [].
Proof.
  intros Hn.
  destruct (triangulate_fuel_enough points) as (diagonals & Htri & Hlen & Hall); [lia|].
  rewrite Hn in Hlen. apply length_zero_iff_nil in Hlen. subst diagonals.
  split; [assumption|]. intros fuel Hfuel. apply Hall. lia.
Qed.

Lemma triangle_no_diagonal_example :
  length [mkPoint 0 0; mkPoint 2 1; mkPoint 1 3] = 3%nat ∧
  triangulate_x_monotone [mkPoint 0 0; mkPoint 2 1; mkPoint 1 3] = Ok [] ∧
  ∀ fuel, (3 ≤ fuel)%nat →
    triangulate_fuel fuel [mkPoint 0 0; mkPoint 2 1; mkPoint 1 3] = Ok [].
Proof.
  split; [reflexivity|].
  apply (triangle_no_diagonal [mkPoint 0 0; mkPoint 2 1; mkPoint 1 3]). reflexivity.
Defined.

(** C9: on a list of at least two points every loop comes to its end: the
    sweep loop with its two inner loops gives a state, the loop of the last
    vertex gives a state, and a list of diagonals is returned; this is so for
    every amount of fuel from the number of points on, with the same list. *)
Theorem triangulate_terminates points :
  (2 ≤ length points)%nat →
  ∃ diagonals,
    triangulate_x_monotone points = Ok diagonals ∧
    ∀ fuel, (length points ≤ fuel)%nat →
      triangulate_fuel fuel points = Ok diagonals ∧
      ∃ chain order st stack,
        sweep_fuel fuel points = Ok (chain, order, st) ∧
        last_vertex fuel points order st = Ok (stack, diagonals).
Proof.
  intros Hn.
  destruct (triangulate_fuel_enough points Hn) as (diagonals & Htri & _ & Hall).
  exists diagonals. split; [assumption|]. intros fuel Hfuel.
  split; [now apply Hall|].
  destruct (triangulate_fuel_run fuel points Hn Hfuel)
    as (chain & order & last_idx & b & mid & t & ds & Hsweep & _ & _ & _ & Hfin & Htri').
  rewrite (Hall fuel Hfuel) in Htri'. injection Htri' as ->.
  now exists chain, order, (b :: mid ++ [t], ds), [b].
Qed.

Lemma triangulate_terminates_crown :
  (2 ≤ length crown)%nat ∧
  ∃ diagonals,
    triangulate_x_monotone crown = Ok diagonals ∧
    ∀ fuel, (length crown ≤ fuel)%nat →
      triangulate_fuel fuel crown = Ok diagonals ∧
      ∃ chain order st stack,
        sweep_fuel fuel crown = Ok (chain, order, st) ∧
        last_vertex fuel crown order st = Ok (stack, diagonals).
Proof.
  split; [simpl; lia|].
  apply (triangulate_terminates crown). simpl. lia.
Defined.

(** C10: on fewer than two points no list of diagonals is returned.  On the
    empty list the minimum over an empty range raises in [find_chains]; on a
    single point the labels and the sweep order are computed and the second
    element of the sweep order does not exist. *)
Theorem triangulate_too_few_points points :
  (length points < 2)%nat →
  (∀ fuel diagonals, triangulate_fuel fuel points ≠ Ok diagonals) ∧
  (points = [] →
     leftmost points = Raise ValueError ∧
     ∀ fuel, find_chains_fuel fuel points = Raise ValueError ∧
             triangulate_fuel fuel points = Raise ValueError) ∧
  (∀ p, points = [p] →
     sweep_order points = Ok [0%nat] ∧
     PyList.getitem [0%nat] 1 = Raise IndexError ∧
     ∀ fuel, (1 ≤ fuel)%nat →
       find_chains_fuel fuel points = Ok [UPPER] ∧
       triangulate_fuel fuel points = Raise IndexError).
Proof.
  intros Hn.
  assert (Hempty : ∀ fuel, find_chains_fuel fuel [] = Raise ValueError ∧
                           triangulate_fuel fuel [] = Raise ValueError).
  { intros fuel. split; reflexivity. }
  assert (Hone : ∀ p fuel, (1 ≤ fuel)%nat →
            find_chains_fuel fuel [p] = Ok [UPPER] ∧
            triangulate_fuel fuel [p] = Raise IndexError).
  { intros p fuel Hfuel. destruct fuel as [|fuel]; [lia|].
    assert (Hc : find_chains_fuel (S fuel) [p] = Ok [UPPER]) by reflexivity.
    split; [exact Hc|].
    unfold triangulate_fuel, sweep_fuel. cbv zeta. rewrite Hc. reflexivity. }
  split; [|split].
  - intros fuel diagonals H.
    destruct points as [|p [|q points]]; [| |simpl in Hn; lia].
    + destruct (Hempty fuel) as [_ He]. congruence.
    + destruct fuel as [|fuel]; [discriminate H|].
      destruct (Hone p (S fuel)) as [_ He]; [lia|]. congruence.
  - intros ->. split; [reflexivity | exact Hempty].
  - intros p ->. split; [reflexivity|]. split; [reflexivity|]. apply Hone.
Qed.

Lemma triangulate_too_few_points_single :
  (length [mkPoint 7 (-2)] < 2)%nat ∧
  (∀ fuel diagonals, triangulate_fuel fuel [mkPoint 7 (-2)] ≠ Ok diagonals) ∧
  ([mkPoint 7 (-2)] = [] →
     leftmost [mkPoint 7 (-2)] = Raise ValueError ∧
     ∀ fuel, find_chains_fuel fuel [mkPoint 7 (-2)] = Raise ValueError ∧
             triangulate_fuel fuel [mkPoint 7 (-2)] = Raise ValueError) ∧
  (∀ p, [mkPoint 7 (-2)] = [p] →
     sweep_order [mkPoint 7 (-2)] = Ok [0%nat] ∧
     PyList.getitem [0%nat] 1 = Raise IndexError ∧
     ∀ fuel, (1 ≤ fuel)%nat →
       find_chains_fuel fuel [mkPoint 7 (-2)] = Ok [UPPER] ∧
       triangulate_fuel fuel [mkPoint 7 (-2)] = Raise IndexError).
Proof.
  split; [simpl; lia|].
  apply (triangulate_too_few_points [mkPoint 7 (-2)]). simpl. lia.
Defined.

(** C3: on the hexagon the first four vertices are labelled UPPER and
    the last two LOWER, and the triangulation returns three diagonals which,
    each with its smaller endpoint first and sorted as [print_diagonals]
    sorts them, are (1,2)(2,-2), (2,-2)(3,3) and (3,3)(4,-1). *)
Theorem hexagon_triangulation :
  find_chains hexagon = Ok [UPPER; UPPER; UPPER; UPPER; LOWER; LOWER] ∧
  triangulate_x_monotone hexagon
  = Ok [(mkPoint 2 (-2), mkPoint 1 2);
        (mkPoint 3 3, mkPoint 2 (-2));
        (mkPoint 4 (-1), mkPoint 3 3)] ∧
  (diagonals ← triangulate_x_monotone hexagon; Ok (sorted_diagonals diagonals))
  = Ok [(mkPoint 1 2, mkPoint 2 (-2));
        (mkPoint 2 (-2), mkPoint 3 3);
        (mkPoint 3 3, mkPoint 4 (-1))] ∧
  ∀ fuel, (6 ≤ fuel)%nat →
    triangulate_fuel fuel hexagon
    = Ok [(mkPoint 2 (-2), mkPoint 1 2);
          (mkPoint 3 3, mkPoint 2 (-2));
          (mkPoint 4 (-1), mkPoint 3 3)].
Proof.
  split; [vm_compute; reflexivity|]. split; [vm_compute; reflexivity|].
  split; [vm_compute; reflexivity|].
  intros fuel Hfuel. apply (triangulate_fuel_mono 6); [vm_compute; reflexivity | lia].
Qed.

Lemma find_chains_extremes_upper_hexagon :
  first_min_x hexagon 0 ∧ first_max_x hexagon 3 ∧ 0%nat ≠ 3%nat ∧
  leftmost hexagon = Ok 0%nat ∧ rightmost hexagon = Ok 3%nat ∧
  ∃ chain,
    find_chains hexagon = Ok chain ∧
    (∀ fuel, (length hexagon ≤ fuel)%nat → find_chains_fuel fuel hexagon = Ok chain) ∧
    length chain = length hexagon ∧
    chain !! 0%nat = Some UPPER ∧ chain !! 3%nat = Some UPPER ∧
    Forall (λ label, label = UPPER ∨ label = LOWER) chain.
Proof.
  assert (Hmin : first_min_x hexagon 0).
  { split; [simpl; lia|]. intros j Hj.
    do 6 (destruct j as [|j]; [simpl; lia|]). simpl in Hj. lia. }
  assert (Hmax : first_max_x hexagon 3).
  { split; [simpl; lia|]. intros j Hj.
    do 6 (destruct j as [|j]; [simpl; lia|]). simpl in Hj. lia. }
  split; [exact Hmin|]. split; [exact Hmax|]. split; [lia|].
  apply (find_chains_extremes_upper hexagon 0 3 Hmin Hmax). lia.
Defined.


(** * Further properties of the program *)

(** ** The orientation predicate *)

(** X1: the orientation of a triple is kept when the triple is rotated, and
    negated when it is read backwards. *)
Theorem orientation_rotate_reverse (p q r : Point) :
  orientation q r p = orientation p q r ∧ orientation r q p = - orientation p q r.
Proof.
  split.
  - destruct (orientation_cases p q r) as [[H1 ->]|[[H1 ->]|[H1 ->]]],
      (orientation_cases q r p) as [[H2 ->]|[[H2 ->]|[H2 ->]]]; lia.
  - destruct (orientation_cases p q r) as [[H1 ->]|[[H1 ->]|[H1 ->]]],
      (orientation_cases r q p) as [[H2 ->]|[[H2 ->]|[H2 ->]]]; lia.
Qed.

Lemma orientation_translate dx dy (p q r : Point) :
  orientation (translate dx dy p) (translate dx dy q) (translate dx dy r)
  = orientation p q r.
Proof.
  destruct (orientation_cases p q r) as [[H1 ->]|[[H1 ->]|[H1 ->]]],
    (orientation_cases (translate dx dy p) (translate dx dy q) (translate dx dy r))
      as [[H2 ->]|[[H2 ->]|[H2 ->]]]; simpl in H2; lia.
Qed.

(** ** The labels of [find_chains] *)

Lemma find_chains_labels_of (points : list Point) (left right : nat) :
  first_min_x points left → first_max_x points right →
  ∃ chain,
    (∀ fuel, (length points ≤ fuel)%nat → find_chains_fuel fuel points = Ok chain) ∧
    length chain = length points ∧
    ∀ j, (j < length points)%nat →
      chain !! j = Some (if decide (on_walk left right j) then UPPER
                         else if decide (left = right) then EmptyString else LOWER).
Proof.
  intros Hmin Hmax.
  assert (Hnil : points ≠ []).
  { intros ->. destruct Hmin as [H _]. simpl in H. lia. }
  destruct (leftmost_first_min points Hnil) as (left' & Hl & Hmin').
  destruct (rightmost_first_max points Hnil) as (right' & Hr & Hmax').
  rewrite <- (first_min_x_unique points left left' Hmin Hmin') in Hl.
  rewrite <- (first_max_x_unique points right right' Hmax Hmax') in Hr.
  clear Hmin' Hmax' left' right'.
  destruct Hmin as [Hlt _], Hmax as [Hrt _].
  set (n := length points) in *.
  set (c1 := foldl (λ c i, label_upper i c) (replicate n EmptyString) (arc n left right)).
  set (c2 := foldl (λ c i, label_lower left right i c) c1 (arc n right left)).
  assert (Hlen1 : length c1 = n).
  { unfold c1. rewrite foldl_g_length; [apply length_replicate|].
    intros. apply length_insert. }
  assert (Hlen2 : length c2 = n).
  { unfold c2. rewrite foldl_g_length; [assumption|].
    intros i chain. unfold label_lower.
    destruct (decide _); [apply length_insert | reflexivity]. }
  assert (Hup : ∀ j, (j < n)%nat →
            c1 !! j = Some (if decide (j ∈ arc n left right) then UPPER else EmptyString)).
  { intros j Hj. unfold c1. rewrite foldl_label_upper.
    - rewrite length_replicate. destruct (decide (j ∈ _)).
      + destruct (decide _); [reflexivity | lia].
      + now apply lookup_replicate_2.
    - rewrite length_replicate. now apply arc_in_range. }
  assert (Hlow : ∀ j, c2 !! j
      = if decide (j ∈ arc n right left ∧ j ≠ left ∧ j ≠ right)
        then Some LOWER else c1 !! j).
  { intros j. unfold c2. apply foldl_label_lower.
    rewrite Hlen1. now apply arc_in_range. }
  exists c2. split; [|split; [assumption|]].
  { intros fuel Hfuel. now apply find_chains_fuel_arc. }
  intros j Hj. rewrite Hlow, (Hup j Hj).
  pose proof (elem_of_arc n left right j Hlt Hrt) as E1.
  pose proof (elem_of_arc n right left j Hrt Hlt) as E2.
  unfold on_walk.
  destruct (decide (j ∈ arc n right left ∧ j ≠ left ∧ j ≠ right)) as [(Hin & H1 & H2)|Hn].
  - apply E2 in Hin.
    destruct (decide _) as [Hw|_]; [lia|].
    destruct (decide (left = right)); [lia | reflexivity].
  - destruct (decide (j ∈ arc n left right)) as [Hin|Hout].
    + apply E1 in Hin. destruct (decide _) as [_|Hw]; [reflexivity | lia].
    + destruct (decide _) as [Hw|Hw]; [exfalso; apply Hout, E1; lia|].
      destruct (decide (left = right)) as [_|Hne]; [reflexivity|].
      exfalso. apply Hn. split; [apply E2; lia | lia].
Qed.

(** X2: [find_chains] labels UPPER exactly the indices met on the forward
    walk from the first index of minimal x to the first index of maximal x,
    both included.  The other indices are labelled LOWER, unless the two
    extremes are the same index: then they keep the empty string. *)
Theorem find_chains_labels (points : list Point) (left right : nat) :
  first_min_x points left → first_max_x points right →
  ∃ chain,
    find_chains points = Ok chain ∧
    length chain = length points ∧
    ∀ j, (j < length points)%nat →
      chain !! j = Some (if decide (on_walk left right j) then UPPER
                         else if decide (left = right) then EmptyString else LOWER).
Proof.
  intros Hmin Hmax.
  destruct (find_chains_labels_of points left right Hmin Hmax) as (chain & Hc & Hlen & Hlab).
  exists chain. split; [apply Hc; reflexivity|]. now split.
Qed.

Lemma find_chains_labels_crown :
  first_min_x crown 0 ∧ first_max_x crown 4 ∧
  ∃ chain,
    find_chains crown = Ok chain ∧
    length chain = length crown ∧
    ∀ j, (j < length crown)%nat →
      chain !! j = Some (if decide (on_walk 0 4 j) then UPPER
                         else if decide (0 = 4)%nat then EmptyString else LOWER).
Proof.
  assert (Hmin : first_min_x crown 0).
  { split; [simpl; lia|]. intros j Hj.
    do 6 (destruct j as [|j]; [simpl; lia|]). simpl in Hj. lia. }
  assert (Hmax : first_max_x crown 4).
  { split; [simpl; lia|]. intros j Hj.
    do 6 (destruct j as [|j]; [simpl; lia|]). simpl in Hj. lia. }
  split; [exact Hmin|]. split; [exact Hmax|].
  exact (find_chains_labels crown 0 4 Hmin Hmax).
Defined.

(** X3: when all the points have the same x, the two extremes are both
    index 0: [find_chains] labels index 0 UPPER and leaves the empty string
    at every other index. *)
Theorem find_chains_same_x (points : list Point) (c : Z) :
  points ≠ [] → Forall (λ p, x p = c) points →
  find_chains points = Ok (UPPER :: replicate (length points - 1) EmptyString).
Proof.
  intros Hne Hall.
  assert (Hx : ∀ j, (j < length points)%nat → x (points !!! j) = c).
  { intros j Hj. destruct (lookup_lt_is_Some_2 points j Hj) as [p Hp].
    rewrite (list_lookup_total_correct _ _ _ Hp).
    exact (proj1 (Forall_lookup _ points) Hall j p Hp). }
  assert (Hpos : (0 < length points)%nat).
  { destruct points; [congruence | simpl; lia]. }
  assert (Hmin : first_min_x points 0).
  { split; [assumption|]. intros j Hj. rewrite (Hx 0%nat Hpos), (Hx j Hj). lia. }
  assert (Hmax : first_max_x points 0).
  { split; [assumption|]. intros j Hj. rewrite (Hx 0%nat Hpos), (Hx j Hj). lia. }
  destruct (find_chains_labels_of points 0 0 Hmin Hmax) as (chain & Hc & Hlen & Hlab).
  unfold find_chains. rewrite (Hc (length points) (Nat.le_refl _)). f_equal.
  apply list_eq. intros j.
  destruct (decide (j < length points)%nat) as [Hj|Hj].
  - rewrite (Hlab j Hj). unfold on_walk. destruct j as [|j].
    + destruct (decide (_ ∨ _)) as [_|Hn]; [reflexivity | lia].
    + destruct (decide (_ ∨ _)) as [Hw|_]; [lia|]. simpl.
      symmetry. apply lookup_replicate_2. lia.
  - rewrite !lookup_ge_None_2; [reflexivity | | lia].
    simpl. rewrite length_replicate. lia.
Qed.

Lemma find_chains_same_x_example :
  [mkPoint 2 0; mkPoint 2 5; mkPoint 2 3] ≠ [] ∧
  Forall (λ p, x p = 2) [mkPoint 2 0; mkPoint 2 5; mkPoint 2 3] ∧
  find_chains [mkPoint 2 0; mkPoint 2 5; mkPoint 2 3]
  = Ok (UPPER :: replicate (length [mkPoint 2 0; mkPoint 2 5; mkPoint 2 3] - 1) EmptyString).
Proof.
  assert (Hne : [mkPoint 2 0; mkPoint 2 5; mkPoint 2 3] ≠ []) by discriminate.
  assert (Hall : Forall (λ p, x p = 2) [mkPoint 2 0; mkPoint 2 5; mkPoint 2 3])
    by (repeat constructor).
  split; [exact Hne|]. split; [exact Hall|].
  exact (find_chains_same_x [mkPoint 2 0; mkPoint 2 5; mkPoint 2 3] 2 Hne Hall).
Defined.


(** ** The sweep order *)

Lemma keys_of_map {A : Type} (key : A → result (Z * Z)) (f : A → Z * Z) (l : list A) :
  Forall (λ a, key a = Ok (f a)) l →
  PyList.keys_of key l = Ok ((λ a, (f a, a)) <$> l).
Proof.
  induction 1 as [|a l Hk _ IH]; simpl; [reflexivity|].
  now rewrite Hk, bind_Ok, IH, bind_Ok.
Qed.

Lemma insert_sorted_by_index (a : (Z * Z) * nat) (l : list ((Z * Z) * nat)) :
  StronglySorted (λ d e, PyList.key_le d.1 e.1 = true ∧ (d.1 = e.1 → (d.2 < e.2)%nat)) l →
  Forall (λ e, (a.2 < e.2)%nat) l →
  StronglySorted (λ d e, PyList.key_le d.1 e.1 = true ∧ (d.1 = e.1 → (d.2 < e.2)%nat))
    (PyList.insert_sorted a l).
Proof.
  induction 1 as [|b l Hs IH Hb]; intros Ha; simpl.
  - repeat constructor.
  - apply Forall_cons in Ha as [Hab Ha].
    destruct (PyList.key_le a.1 b.1) eqn:E.
    + constructor; [now constructor|]. constructor; [now split|].
      apply Forall_forall. intros c Hc. split.
      * eapply key_le_trans; [exact E|].
        exact (proj1 (proj1 (Forall_forall _ l) Hb c Hc)).
      * intros _. exact (proj1 (Forall_forall _ l) Ha c Hc).
    + constructor; [now apply IH|]. rewrite insert_sorted_perm.
      constructor; [|assumption]. split; [now apply key_le_total|].
      intros Heq. apply key_le_false_ne in E. congruence.
Qed.

Lemma stable_sort_by_index (l : list ((Z * Z) * nat)) :
  StronglySorted (λ d e, (d.2 < e.2)%nat) l →
  StronglySorted (λ d e, PyList.key_le d.1 e.1 = true ∧ (d.1 = e.1 → (d.2 < e.2)%nat))
    (PyList.stable_sort l).
Proof.
  induction 1 as [|a l Hs IH Ha]; simpl; [constructor|].
  apply insert_sorted_by_index; [assumption|]. now rewrite stable_sort_perm.
Qed.

Lemma StronglySorted_lookup {A : Type} (R : relation A) (l : list A) i j a b :
  StronglySorted R l → (i < j)%nat → l !! i = Some a → l !! j = Some b → R a b.
Proof.
  intros Hs. revert i j. induction Hs as [|c l Hs IH Hc]; intros i j Hij Hi Hj.
  - discriminate.
  - destruct j as [|j]; [lia|]. destruct i as [|i].
    + injection Hi as ->. simpl in Hj.
      exact (proj1 (Forall_lookup _ l) Hc j b Hj).
    + simpl in Hi, Hj. apply (IH i j); (assumption || lia).
Qed.

Lemma decorated_seq_sorted (f : nat → Z * Z) n : ∀ s,
  StronglySorted (λ d e : (Z * Z) * nat, (d.2 < e.2)%nat) ((λ i, (f i, i)) <$> seq s n).
Proof.
  induction n as [|n IH]; intros s; simpl; [constructor|].
  constructor; [apply IH|].
  apply Forall_fmap, Forall_forall. intros i Hi. apply elem_of_seq in Hi. simpl. lia.
Qed.

Lemma sweep_key_in_range (points : list Point) i :
  (i < length points)%nat →
  sweep_key points i = Ok (x (points !!! i), - y (points !!! i)).
Proof. intros Hi. unfold sweep_key. now rewrite getitem_point. Qed.

(** X4: the sweep order never fails; it is a permutation of the indices
    [0 .. n-1], sorted by x ascending, then by y descending, and vertices
    with the same coordinates stand in the order of their indices. *)
Theorem sweep_order_sorted (points : list Point) :
  ∃ order,
    sweep_order points = Ok order ∧
    order ≡ₚ seq 0 (length points) ∧
    ∀ i j a b, (i < j)%nat → order !! i = Some a → order !! j = Some b →
      x (points !!! a) < x (points !!! b) ∨
      (x (points !!! a) = x (points !!! b) ∧
       (y (points !!! b) < y (points !!! a) ∨
        (y (points !!! a) = y (points !!! b) ∧ (a < b)%nat))).
Proof.
  set (f := λ i : nat, (x (points !!! i), - y (points !!! i))).
  set (d := (λ i, (f i, i)) <$> seq 0 (length points)).
  assert (Hk : PyList.keys_of (sweep_key points) (seq 0 (length points)) = Ok d).
  { apply keys_of_map, Forall_forall. intros i Hi. apply elem_of_seq in Hi.
    apply sweep_key_in_range. lia. }
  exists ((PyList.stable_sort d).*2). split; [|split].
  - unfold sweep_order, PyList.sorted, PyList.range.
    now rewrite Nat.sub_0_r, Hk, bind_Ok.
  - rewrite stable_sort_perm. unfold d. rewrite <- list_fmap_compose.
    now rewrite list_fmap_id.
  - intros i j a b Hij Hi Hj.
    rewrite list_lookup_fmap in Hi, Hj.
    destruct (PyList.stable_sort d !! i) as [[ka a']|] eqn:Ei; [|discriminate].
    destruct (PyList.stable_sort d !! j) as [[kb b']|] eqn:Ej; [|discriminate].
    simpl in Hi, Hj. injection Hi as ->. injection Hj as ->.
    assert (Hdec : ∀ k v, (k, v) ∈ PyList.stable_sort d → k = f v).
    { intros k v Hin. rewrite stable_sort_perm in Hin. unfold d in Hin.
      apply list_elem_of_fmap in Hin as (i0 & Heq & _). now injection Heq as -> ->. }
    pose proof (Hdec ka a (list_elem_of_lookup_2 _ _ _ Ei)) as ->.
    pose proof (Hdec kb b (list_elem_of_lookup_2 _ _ _ Ej)) as ->.
    destruct (StronglySorted_lookup _ _ i j _ _
                (stable_sort_by_index d (decorated_seq_sorted f _ 0)) Hij Ei Ej)
      as [Hle Hidx].
    simpl in Hle, Hidx. unfold PyList.key_le, f in Hle. simpl in Hle.
    apply orb_true_iff in Hle as [Hlt|Heq].
    + left. now apply Z.ltb_lt.
    + apply andb_true_iff in Heq as [Hx Hy].
      apply Z.eqb_eq in Hx. apply Z.leb_le in Hy. right. split; [assumption|].
      destruct (decide (y (points !!! a) = y (points !!! b))) as [Ey|Ey]; [|left; lia].
      right. split; [assumption|]. apply Hidx. unfold f. now rewrite Hx, Ey.
Qed.

(** ** What the stack and the diagonals hold *)

Lemma sweep_step_shape fuel points chain order i cur_idx prev stack diagonals :
  length chain = length points → in_range (length points) order →
  order !! i = Some cur_idx → order !! (i - 1)%nat = Some prev →
  stack ≠ [] → in_range (length points) stack → (length stack ≤ fuel)%nat →
  ∃ kept targets,
    sweep_step fuel points chain order i (stack, diagonals)
    = Ok (kept ++ [cur_idx],
          diagonals ++ ((λ v, (points !!! cur_idx, points !!! v)) <$> targets)) ∧
    kept ≠ [] ∧
    Forall (λ v, v ∈ stack ∨ v = prev) kept ∧ Forall (λ v, v ∈ stack) targets ∧
    (NoDup stack → NoDup kept ∧ NoDup targets).
Proof.
  intros Hchain Ho Hcur Hprev Hne Hr Hfuel.
  destruct (last_is_Some stack Hne) as [top Htop].
  pose proof (in_range_lookup _ _ _ _ Ho Hcur) as Hc.
  pose proof (in_range_last _ _ _ Hr Htop) as Ht.
  destruct (lookup_lt_is_Some_2 chain cur_idx) as [lc Hlc]; [lia|].
  destruct (lookup_lt_is_Some_2 chain top) as [lt Hlt]; [lia|].
  unfold sweep_step. cbn [fst].
  rewrite (PyListFacts.getitem_Some _ _ _ Hcur), bind_Ok.
  rewrite (PyListFacts.getitem_back_last _ _ Htop), bind_Ok.
  rewrite (PyListFacts.getitem_Some _ _ _ Hlc), bind_Ok.
  rewrite (PyListFacts.getitem_Some _ _ _ Hlt), bind_Ok.
  destruct (decide (lc ≠ lt)) as [Hd|Hs].
  - destruct stack as [|b rest]; [congruence|].
    apply Forall_cons in Hr as [Hb Hr]. simpl in Hfuel.
    rewrite (chain_change_spec fuel points order i cur_idx prev b rest diagonals)
      by (assumption || lia).
    exists [prev], (reverse rest). split; [reflexivity|]. split; [discriminate|].
    split; [repeat constructor; now right|]. split.
    + apply Forall_forall. intros v Hv. rewrite elem_of_reverse in Hv.
      apply elem_of_cons. now right.
    + intros Hnd. split; [apply NoDup_singleton|].
      rewrite reverse_Permutation. now apply NoDup_cons in Hnd as [_ Hnd].
  - destruct (same_chain_spec fuel points chain cur_idx lc stack diagonals
                Hc Hlc Hne Hr Hfuel) as (base & w & popped & Hst & Hrun & _ & _).
    rewrite Hrun.
    exists (base ++ [w]), (reverse (take (length popped) (w :: popped))).
    split; [now rewrite <- app_assoc|]. split; [now destruct base|]. split; [|split].
    + apply Forall_forall. intros v Hv. left. rewrite Hst.
      apply elem_of_app in Hv as [Hv|Hv]; apply elem_of_app; [now left|].
      right. apply list_elem_of_singleton in Hv as ->. apply elem_of_cons. now left.
    + apply Forall_forall. intros v Hv. rewrite elem_of_reverse in Hv.
      apply elem_of_take in Hv as (k & Hk & _).
      rewrite Hst. apply elem_of_app. right. eapply list_elem_of_lookup_2; eassumption.
    + intros Hnd. rewrite Hst in Hnd. split.
      * replace (base ++ w :: popped) with ((base ++ [w]) ++ popped) in Hnd
          by now rewrite <- app_assoc.
        now apply NoDup_app in Hnd as (Hnd & _ & _).
      * apply NoDup_app in Hnd as (_ & _ & Hnd). rewrite reverse_Permutation.
        eapply sublist_NoDup; [exact Hnd | apply sublist_take].
Qed.

Lemma before_mono order i i' v : (i ≤ i')%nat → before order i v → before order i' v.
Proof. intros Hle (k & Hk & Hv). exists k. split; [lia | assumption]. Qed.

Lemma before_in_range n order i stack :
  in_range n order → Forall (before order i) stack → in_range n stack.
Proof.
  intros Ho Hs. eapply Forall_impl; [exact Hs|]. simpl.
  intros v (k & _ & Hv). eapply in_range_lookup; eassumption.
Qed.

Lemma indexed_diagonals_mono points order i i' diagonals :
  (i ≤ i')%nat → indexed_diagonals points order i diagonals →
  indexed_diagonals points order i' diagonals.
Proof.
  intros Hle (idx & Hd & Hnd & Hall). exists idx. split; [assumption|]. split; [assumption|].
  eapply Forall_impl; [exact Hall|]. simpl. intros e (j & k & Hjk & Hj & Hk).
  exists j, k. split; [lia | now split].
Qed.

(** Diagonals from one vertex to distinct vertices that stand before it,
    added to diagonals whose first ends stand before it. *)
Lemma indexed_diagonals_extend points order i cur_idx targets diagonals :
  NoDup order → order !! i = Some cur_idx →
  NoDup targets → Forall (before order i) targets →
  indexed_diagonals points order i diagonals →
  indexed_diagonals points order (S i)
    (diagonals ++ ((λ v, (points !!! cur_idx, points !!! v)) <$> targets)).
Proof.
  intros Hno Hcur Hnt Hbt (idx & -> & Hnd & Hall).
  exists (idx ++ ((λ v, (cur_idx, v)) <$> targets)). split; [|split].
  - rewrite fmap_app, <- list_fmap_compose. reflexivity.
  - apply NoDup_app. split; [assumption|]. split.
    + intros e He Hin. apply list_elem_of_fmap in Hin as (v & -> & _).
      destruct (proj1 (Forall_forall _ idx) Hall _ He) as (j & k & Hjk & Hj & _).
      simpl in Hj. pose proof (NoDup_lookup _ _ _ _ Hno Hj Hcur). lia.
    + apply NoDup_fmap_2_strong; [|assumption]. intros v1 v2 _ _ Heq. congruence.
  - apply Forall_app. split.
    + eapply Forall_impl; [exact Hall|]. simpl. intros e (j & k & Hjk & Hj & Hk).
      exists j, k. split; [lia | now split].
    + apply Forall_fmap. eapply Forall_impl; [exact Hbt|]. simpl.
      intros v (k & Hk & Hkv). exists i, k. split; [lia | now split].
Qed.

Lemma indexed_diagonals_sweep points order i diagonals :
  indexed_diagonals points order i diagonals →
  Forall (sweep_diagonal points order) diagonals.
Proof.
  intros (idx & -> & _ & Hall). apply Forall_fmap.
  eapply Forall_impl; [exact Hall|]. simpl. intros [c v] (j & k & Hjk & Hj & Hk).
  exists j, k, c, v. split; [lia|]. now split.
Qed.

Lemma sweep_step_keeps fuel points chain order i stack diagonals stack' diagonals' :
  length chain = length points → in_range (length points) order → NoDup order →
  (1 ≤ i < length order)%nat → (length stack ≤ fuel)%nat →
  Forall (before order i) stack → last stack = order !! (i - 1)%nat → NoDup stack →
  indexed_diagonals points order i diagonals →
  sweep_step fuel points chain order i (stack, diagonals) = Ok (stack', diagonals') →
  Forall (before order (S i)) stack' ∧ last stack' = order !! i ∧ NoDup stack' ∧
  indexed_diagonals points order (S i) diagonals'.
Proof.
  intros Hchain Ho Hno Hi Hfuel Hbef Hlast Hns Hdiag Hstep.
  destruct (lookup_lt_is_Some_2 order i) as [cur Hcur]; [lia|].
  destruct (lookup_lt_is_Some_2 order (i - 1)) as [prev Hprev]; [lia|].
  assert (Hne : stack ≠ []).
  { intros ->. rewrite Hprev in Hlast. discriminate. }
  pose proof (before_in_range _ _ _ _ Ho Hbef) as Hr.
  destruct (sweep_step_shape fuel points chain order i cur prev stack diagonals
              Hchain Ho Hcur Hprev Hne Hr Hfuel)
    as (kept & targets & Hrun & _ & Hkept & Htargets & Hnodup).
  destruct (Hnodup Hns) as [Hnk Hnt].
  rewrite Hrun in Hstep. injection Hstep as <- <-.
  assert (Hin : ∀ v, v ∈ stack → before order i v).
  { intros v Hv. exact (proj1 (Forall_forall _ stack) Hbef v Hv). }
  assert (Hkb : Forall (before order i) kept).
  { eapply Forall_impl; [exact Hkept|]. simpl. intros v [Hv| ->]; [now apply Hin|].
    exists (i - 1)%nat. split; [lia | assumption]. }
  split; [|split; [|split]].
  - apply Forall_app. split.
    + eapply Forall_impl; [exact Hkb|]. simpl. intros v. apply before_mono. lia.
    + repeat constructor. exists i. split; [lia | assumption].
  - now rewrite last_snoc.
  - apply NoDup_app. split; [assumption|]. split; [|apply NoDup_singleton].
    intros v Hv Hc. apply list_elem_of_singleton in Hc as ->.
    destruct (proj1 (Forall_forall _ kept) Hkb _ Hv) as (k & Hk & Hkv).
    pose proof (NoDup_lookup _ _ _ _ Hno Hkv Hcur). lia.
  - apply indexed_diagonals_extend; try assumption.
    eapply Forall_impl; [exact Htargets|]. simpl. intros v. apply Hin.
Qed.

Lemma sweep_loop_keeps fuel points chain order k : ∀ i stack diagonals stack' diagonals',
  length chain = length points → in_range (length points) order → NoDup order →
  (1 ≤ i)%nat → (i + k ≤ length order)%nat →
  (2 ≤ length stack)%nat → (length stack + k ≤ fuel)%nat →
  Forall (before order i) stack → last stack = order !! (i - 1)%nat → NoDup stack →
  indexed_diagonals points order i diagonals →
  sweep_loop fuel points chain order (seq i k) (stack, diagonals)
  = Ok (stack', diagonals') →
  Forall (before order (i + k)) stack' ∧ last stack' = order !! (i + k - 1)%nat ∧
  NoDup stack' ∧ indexed_diagonals points order (i + k) diagonals'.
Proof.
  induction k as [|k IH];
    intros i stack diagonals stack' diagonals' Hchain Ho Hno Hi Hik Hlen Hfuel
      Hbef Hlast Hns Hdiag Hrun.
  - simpl in Hrun. injection Hrun as <- <-. now rewrite Nat.add_0_r.
  - simpl seq in Hrun. cbn [sweep_loop] in Hrun.
    assert (Hne : stack ≠ []) by (intros ->; simpl in Hlen; lia).
    pose proof (before_in_range _ _ _ _ Ho Hbef) as Hr.
    destruct (sweep_step_inv fuel points chain order i stack diagonals)
      as (stack1 & diagonals1 & Hstep & _ & Hlen1 & _); try (assumption || lia).
    rewrite Hstep, bind_Ok in Hrun.
    destruct (sweep_step_keeps fuel points chain order i stack diagonals stack1 diagonals1)
      as (Hbef1 & Hlast1 & Hns1 & Hdiag1); try (assumption || lia).
    replace (i + S k)%nat with (S i + k)%nat by lia.
    apply (IH (S i) stack1 diagonals1); try (assumption || lia).
    now replace (S i - 1)%nat with i by lia.
Qed.

Lemma sweep_fuel_keeps fuel points chain order stack diagonals :
  (3 ≤ length points)%nat → (length points ≤ fuel)%nat →
  sweep_fuel fuel points = Ok (chain, order, (stack, diagonals)) →
  sweep_order points = Ok order ∧
  Forall (before order (length points - 1)) stack ∧
  last stack = order !! (length points - 2)%nat ∧
  NoDup stack ∧
  indexed_diagonals points order (length points - 1) diagonals.
Proof.
  intros Hn Hfuel Hsweep.
  destruct (find_chains_fuel_ok points) as (chain0 & Hlc & Hchain).
  { intros ->. simpl in Hn. lia. }
  destruct (sweep_order_perm points) as (order0 & Horder & Hp).
  assert (Hlo : length order0 = length points) by (rewrite Hp; apply length_seq).
  assert (Hro : in_range (length points) order0).
  { unfold in_range. rewrite Hp. apply Forall_forall.
    intros i Hi. apply elem_of_seq in Hi. lia. }
  assert (Hno : NoDup order0) by (rewrite Hp; apply NoDup_seq).
  destruct (lookup_lt_is_Some_2 order0 0) as [o0 Ho0]; [lia|].
  destruct (lookup_lt_is_Some_2 order0 1) as [o1 Ho1]; [lia|].
  unfold sweep_fuel in Hsweep. cbv zeta in Hsweep.
  rewrite (Hchain fuel Hfuel), bind_Ok, Horder, bind_Ok in Hsweep.
  rewrite (PyListFacts.getitem_Some _ _ _ Ho0), bind_Ok in Hsweep.
  rewrite (PyListFacts.getitem_Some _ _ _ Ho1), bind_Ok in Hsweep.
  unfold PyList.append, PyList.range in Hsweep. simpl app in Hsweep.
  destruct (sweep_loop fuel points chain0 order0 _ _) as [[stack1 diagonals1]| |] eqn:Hloop;
    try discriminate Hsweep.
  rewrite bind_Ok in Hsweep. injection Hsweep as <- <- <- <-.
  split; [assumption|].
  destruct (sweep_loop_keeps fuel points chain0 order0 (length points - 1 - 2) 2
              [o0; o1] [] stack1 diagonals1) as (Hbef & Hlast & Hns & Hdiag);
    try (assumption || lia).
  - simpl. lia.
  - simpl. lia.
  - repeat constructor; [exists 0%nat | exists 1%nat]; (split; [lia | assumption]).
  - simpl. now rewrite Ho1.
  - apply NoDup_cons. split; [|apply NoDup_singleton].
    intros Hin. apply list_elem_of_singleton in Hin as ->.
    pose proof (NoDup_lookup _ _ _ _ Hno Ho0 Ho1). lia.
  - exists []. split; [reflexivity|]. split; constructor.
  - replace (2 + (length points - 1 - 2))%nat with (length points - 1)%nat in * by lia.
    replace (length points - 1 - 1)%nat with (length points - 2)%nat in * by lia.
    now repeat split.
Qed.

Lemma triangulate_indexed points :
  (2 ≤ length points)%nat →
  ∃ order diagonals,
    sweep_order points = Ok order ∧
    triangulate_x_monotone points = Ok diagonals ∧
    indexed_diagonals points order (length points) diagonals.
Proof.
  intros Hn.
  destruct (sweep_order_perm points) as (order & Horder & Hp).
  assert (Hlo : length order = length points) by (rewrite Hp; apply length_seq).
  assert (Hno : NoDup order) by (rewrite Hp; apply NoDup_seq).
  destruct (triangulate_fuel_enough points Hn) as (ds & Htri & Hlen & _).
  exists order, ds. split; [assumption|]. split; [assumption|].
  destruct (decide (length points = 2)%nat) as [H2|H2].
  { rewrite H2 in Hlen. apply length_zero_iff_nil in Hlen. subst ds.
    exists []. split; [reflexivity|]. split; constructor. }
  destruct (triangulate_fuel_run (length points) points Hn (Nat.le_refl _))
    as (chain & order' & last_idx & b & mid & t & diagonals
        & Hsweep & Hlast & _ & _ & _ & Htri').
  unfold triangulate_x_monotone in Htri. rewrite Htri in Htri'. injection Htri' as ->.
  destruct (sweep_fuel_keeps (length points) points chain order' (b :: mid ++ [t]) diagonals)
    as (Horder' & Hbef & _ & Hns & Hdiag); try (assumption || lia).
  rewrite Horder in Horder'. injection Horder' as <-.
  rewrite last_lookup, Hlo in Hlast.
  apply Forall_cons in Hbef as [_ Hbef]. apply Forall_app in Hbef as [Hbef _].
  apply NoDup_cons in Hns as [_ Hns]. apply NoDup_app in Hns as (Hns & _ & _).
  apply (indexed_diagonals_mono _ _ (S (length points - 1))); [lia|].
  apply indexed_diagonals_extend; try assumption.
  - now replace (length points - 1)%nat with (pred (length points)) by lia.
  - now rewrite reverse_Permutation.
  - apply Forall_forall. intros v Hv. rewrite elem_of_reverse in Hv.
    exact (proj1 (Forall_forall _ mid) Hbef v Hv).
Qed.

(** X5: every diagonal returned joins a vertex, as first end, to a vertex
    that stands earlier in the sweep order. *)
Theorem diagonals_join_earlier_vertices points :
  (2 ≤ length points)%nat →
  ∃ order diagonals,
    sweep_order points = Ok order ∧
    triangulate_x_monotone points = Ok diagonals ∧
    Forall (sweep_diagonal points order) diagonals.
Proof.
  intros Hn.
  destruct (triangulate_indexed points Hn) as (order & ds & Horder & Htri & Hidx).
  exists order, ds. split; [assumption|]. split; [assumption|].
  eapply indexed_diagonals_sweep; eassumption.
Qed.

Lemma diagonals_join_earlier_vertices_crown :
  (2 ≤ length crown)%nat ∧
  ∃ order diagonals,
    sweep_order crown = Ok order ∧
    triangulate_x_monotone crown = Ok diagonals ∧
    Forall (sweep_diagonal crown order) diagonals.
Proof.
  split; [simpl; lia|]. apply (diagonals_join_earlier_vertices crown). simpl. lia.
Defined.

(** On pairwise distinct points, two vertices with the same point are the
    same vertex, and two positions of the sweep order with the same vertex
    are the same position. *)
Lemma indexed_diagonals_distinct (points : list Point) (order : list nat) (i : nat)
    (idx : list (nat * nat)) :
  NoDup points → NoDup order → in_range (length points) order →
  Forall (λ e, ∃ j k, (k < j < i)%nat ∧ order !! j = Some e.1 ∧ order !! k = Some e.2) idx →
  (∀ e, e ∈ idx → points !!! e.1 ≠ points !!! e.2) ∧
  (∀ e e', e ∈ idx → e' ∈ idx →
     (points !!! e.1, points !!! e.2) = (points !!! e'.1, points !!! e'.2) → e = e') ∧
  (∀ e e', e ∈ idx → e' ∈ idx →
     (points !!! e.1, points !!! e.2) ≠ (points !!! e'.2, points !!! e'.1)).
Proof.
  intros Hnd Hno Hro Hall.
  assert (Hinj : ∀ j j' c c', order !! j = Some c → order !! j' = Some c' →
            points !!! c = points !!! c' → j = j' ∧ c = c').
  { intros j j' c c' Hj Hj' Heq.
    pose proof (in_range_lookup _ _ _ _ Hro Hj) as Hc.
    pose proof (in_range_lookup _ _ _ _ Hro Hj') as Hc'.
    destruct (lookup_lt_is_Some_2 points c Hc) as [p Hp].
    destruct (lookup_lt_is_Some_2 points c' Hc') as [p' Hp'].
    rewrite (list_lookup_total_correct _ _ _ Hp) in Heq.
    rewrite (list_lookup_total_correct _ _ _ Hp') in Heq. subst p'.
    pose proof (NoDup_lookup _ _ _ _ Hnd Hp Hp') as ->.
    split; [|reflexivity]. exact (NoDup_lookup _ _ _ _ Hno Hj Hj'). }
  assert (Hget : ∀ e, e ∈ idx →
            ∃ j k, (k < j < i)%nat ∧ order !! j = Some e.1 ∧ order !! k = Some e.2).
  { intros e He. exact (proj1 (Forall_forall _ idx) Hall e He). }
  split; [|split].
  - intros e He Heq. destruct (Hget e He) as (j & k & Hjk & Hj & Hk).
    destruct (Hinj j k _ _ Hj Hk Heq). lia.
  - intros [c v] [c' v'] He He' Heq. simpl in Heq. injection Heq as H1 H2.
    destruct (Hget _ He) as (j & k & Hjk & Hj & Hk).
    destruct (Hget _ He') as (j' & k' & Hjk' & Hj' & Hk').
    simpl in *. destruct (Hinj j j' _ _ Hj Hj' H1) as [_ ->].
    now destruct (Hinj k k' _ _ Hk Hk' H2) as [_ ->].
  - intros [c v] [c' v'] He He' Heq. simpl in Heq. injection Heq as H1 H2.
    destruct (Hget _ He) as (j & k & Hjk & Hj & Hk).
    destruct (Hget _ He') as (j' & k' & Hjk' & Hj' & Hk').
    simpl in *. destruct (Hinj j k' _ _ Hj Hk' H1) as [-> _].
    destruct (Hinj k j' _ _ Hk Hj' H2) as [-> _]. lia.
Qed.

Lemma triangulate_distinct points :
  NoDup points → (2 ≤ length points)%nat →
  ∃ diagonals,
    triangulate_x_monotone points = Ok diagonals ∧
    Forall (λ d : Diagonal, d.1 ≠ d.2) diagonals ∧
    NoDup diagonals ∧
    ∀ d, d ∈ diagonals → (d.2, d.1) ∉ diagonals.
Proof.
  intros Hnd Hn.
  destruct (triangulate_indexed points Hn)
    as (order & ds & Horder & Htri & idx & -> & Hni & Hall).
  destruct (sweep_order_perm points) as (order' & Horder' & Hp).
  rewrite Horder in Horder'. injection Horder' as <-.
  assert (Hno : NoDup order) by (rewrite Hp; apply NoDup_seq).
  assert (Hro : in_range (length points) order).
  { unfold in_range. rewrite Hp. apply Forall_forall.
    intros i Hi. apply elem_of_seq in Hi. lia. }
  destruct (indexed_diagonals_distinct points order _ idx Hnd Hno Hro Hall)
    as (Hdeg & Hinj & Hrev).
  eexists. split; [exact Htri|]. split; [|split].
  - apply Forall_fmap, Forall_forall. intros e He. simpl. now apply Hdeg.
  - apply NoDup_fmap_2_strong; [|assumption]. intros e e' He He' Heq. now apply Hinj.
  - intros d Hd Hd'.
    apply list_elem_of_fmap in Hd as (e & -> & He).
    apply list_elem_of_fmap in Hd' as (e' & Heq & He'). simpl in Heq.
    exact (Hrev e' e He' He (eq_sym Heq)).
Qed.

(** X6: when the points are pairwise distinct, no diagonal returned has
    twice the same point as its ends. *)
Theorem diagonals_not_degenerate points :
  NoDup points → (2 ≤ length points)%nat →
  ∃ diagonals,
    triangulate_x_monotone points = Ok diagonals ∧
    Forall (λ d : Diagonal, d.1 ≠ d.2) diagonals.
Proof.
  intros Hnd Hn.
  destruct (triangulate_distinct points Hnd Hn) as (ds & Htri & Hdeg & _).
  now exists ds.
Qed.

Lemma diagonals_not_degenerate_hexagon :
  NoDup hexagon ∧ (2 ≤ length hexagon)%nat ∧
  ∃ diagonals,
    triangulate_x_monotone hexagon = Ok diagonals ∧
    Forall (λ d : Diagonal, d.1 ≠ d.2) diagonals.
Proof.
  assert (Hnd : NoDup hexagon).
  { refine (bool_decide_unpack (NoDup hexagon) _). vm_compute. exact I. }
  split; [exact Hnd|]. split; [simpl; lia|].
  apply (diagonals_not_degenerate hexagon Hnd). simpl. lia.
Defined.

(** X13: when the points are pairwise distinct, no diagonal is returned
    twice, and no diagonal is returned together with the same diagonal read
    from its other end. *)
Theorem diagonals_not_repeated points :
  NoDup points → (2 ≤ length points)%nat →
  ∃ diagonals,
    triangulate_x_monotone points = Ok diagonals ∧
    NoDup diagonals ∧
    ∀ d, d ∈ diagonals → (d.2, d.1) ∉ diagonals.
Proof.
  intros Hnd Hn.
  destruct (triangulate_distinct points Hnd Hn) as (ds & Htri & _ & Hno & Hrev).
  now exists ds.
Qed.

Lemma diagonals_not_repeated_crown :
  NoDup crown ∧ (2 ≤ length crown)%nat ∧
  ∃ diagonals,
    triangulate_x_monotone crown = Ok diagonals ∧
    NoDup diagonals ∧
    ∀ d, d ∈ diagonals → (d.2, d.1) ∉ diagonals.
Proof.
  assert (Hnd : NoDup crown).
  { refine (bool_decide_unpack (NoDup crown) _). vm_compute. exact I. }
  split; [exact Hnd|]. split; [simpl; lia|].
  apply (diagonals_not_repeated crown Hnd). simpl. lia.
Defined.

(** X7: when the sweep loop is over, the top of the stack, which the
    handling of the last vertex pops without a diagonal, is the vertex just
    before the last one in the sweep order; the vertices of the stack are
    pairwise distinct and all stand before the last one in the sweep order. *)
Theorem sweep_ends_below_last fuel points chain order stack diagonals :
  (3 ≤ length points)%nat → (length points ≤ fuel)%nat →
  sweep_fuel fuel points = Ok (chain, order, (stack, diagonals)) →
  last stack = order !! (length points - 2)%nat ∧
  NoDup stack ∧
  Forall (before order (length points - 1)) stack.
Proof.
  intros Hn Hfuel Hsweep.
  destruct (sweep_fuel_keeps fuel points chain order stack diagonals Hn Hfuel Hsweep)
    as (_ & Hbef & Hlast & Hns & _).
  now repeat split.
Qed.

Lemma sweep_ends_below_last_pentagon :
  (3 ≤ length pentagon)%nat ∧ (length pentagon ≤ 5)%nat ∧
  sweep_fuel 5 pentagon
  = Ok ([UPPER; UPPER; UPPER; UPPER; UPPER], [0; 1; 2; 3; 4]%nat, ([0; 1; 2; 3]%nat, [])) ∧
  last [0; 1; 2; 3]%nat = [0; 1; 2; 3; 4]%nat !! (length pentagon - 2)%nat ∧
  NoDup [0; 1; 2; 3]%nat ∧
  Forall (before [0; 1; 2; 3; 4]%nat (length pentagon - 1)) [0; 1; 2; 3]%nat.
Proof.
  assert (H1 : (3 ≤ length pentagon)%nat) by (simpl; lia).
  assert (H2 : (length pentagon ≤ 5)%nat) by (simpl; lia).
  assert (H3 : sweep_fuel 5 pentagon
    = Ok ([UPPER; UPPER; UPPER; UPPER; UPPER], [0; 1; 2; 3; 4]%nat,
          ([0; 1; 2; 3]%nat, []))) by (vm_compute; reflexivity).
  split; [exact H1|]. split; [exact H2|]. split; [exact H3|].
  exact (sweep_ends_below_last 5 pentagon _ _ _ _ H1 H2 H3).
Defined.

(** X8: a list of exactly two points gives no error and no diagonal. *)
Theorem two_points_no_diagonal points :
  length points = 2%nat →
  triangulate_x_monotone points = Ok [] ∧
  ∀ fuel, (2 ≤ fuel)%nat → triangulate_fuel fuel points = Ok [].
Proof.
  intros Hn.
  destruct (triangulate_fuel_enough points) as (diagonals & Htri & Hlen & Hall); [lia|].
  rewrite Hn in Hlen. apply length_zero_iff_nil in Hlen. subst diagonals.
  split; [assumption|]. intros fuel Hfuel. apply Hall. lia.
Qed.

Lemma two_points_no_diagonal_example :
  length [mkPoint 0 0; mkPoint 3 1] = 2%nat ∧
  triangulate_x_monotone [mkPoint 0 0; mkPoint 3 1] = Ok [] ∧
  ∀ fuel, (2 ≤ fuel)%nat → triangulate_fuel fuel [mkPoint 0 0; mkPoint 3 1] = Ok [].
Proof.
  split; [reflexivity|].
  apply (two_points_no_diagonal [mkPoint 0 0; mkPoint 3 1]). reflexivity.
Defined.

(** ** The diagonals as [print_diagonals] orders them *)

Lemma point_eq (a b : Point) : x a = x b → y a = y b → a = b.
Proof. destruct a, b. simpl. now intros -> ->. Qed.

(** X9: [print_diagonals] puts the two ends of a diagonal in order: the
    diagonal keeps its two ends, the first end is the smaller one by x and
    then by y, a diagonal and the same diagonal with its ends exchanged come
    out equal, and a diagonal already in order is left as it is. *)
Theorem normalize_diagonal_ordered (a b : Point) :
  (normalize_diagonal (a, b) = (a, b) ∨ normalize_diagonal (a, b) = (b, a)) ∧
  point_le (normalize_diagonal (a, b)).1 (normalize_diagonal (a, b)).2 ∧
  normalize_diagonal (b, a) = normalize_diagonal (a, b) ∧
  normalize_diagonal (normalize_diagonal (a, b)) = normalize_diagonal (a, b).
Proof.
  assert (Hcases : ∀ p q : Point,
            (normalize_diagonal (p, q) = (p, q) ∧ point_le p q) ∨
            (normalize_diagonal (p, q) = (q, p) ∧ point_le q p ∧ ¬ point_le p q)).
  { intros p q. unfold normalize_diagonal, point_le.
    destruct (Z.gtb_spec (x p) (x q)) as [H1|H1]; simpl.
    - right. split; [reflexivity|]. lia.
    - destruct (Z.eqb_spec (x p) (x q)) as [H2|H2]; simpl.
      + destruct (Z.gtb_spec (y p) (y q)) as [H3|H3].
        * right. split; [reflexivity|]. lia.
        * left. split; [reflexivity|]. lia.
      + left. split; [reflexivity|]. lia. }
  assert (Hboth : ∀ p q : Point, point_le p q → point_le q p → p = q).
  { intros p q Hpq Hqp. unfold point_le in *. apply point_eq; lia. }
  destruct (Hcases a b) as [[E1 L1]|(E1 & L1 & N1)], (Hcases b a) as [[E2 L2]|(E2 & L2 & N2)].
  - pose proof (Hboth a b L1 L2) as Hab. subst b.
    rewrite !E1. simpl. split; [now left|]. now split.
  - rewrite E2, !E1. simpl. split; [now left|]. now split.
  - rewrite E1, E2. simpl. split; [now right|]. now split.
  - contradiction.
Qed.

Lemma filter_fmap_snd {A B : Type} (P : B → Prop) (Q : A * B → Prop)
    `{∀ b, Decision (P b)} `{∀ e, Decision (Q e)} (l : list (A * B)) :
  Forall (λ e, P e.2 ↔ Q e) l → filter P (l.*2) = (filter Q l).*2.
Proof.
  induction 1 as [|e l He _ IH]; [reflexivity|].
  rewrite fmap_cons, !filter_cons, IH.
  destruct (decide (P e.2)), (decide (Q e)); tauto || reflexivity.
Qed.

(** X10: the list that [print_diagonals] prints holds the diagonals, each
    with its ends in order, sorted by the first end alone (by x, then by y);
    diagonals with the same first end keep the order in which they were
    given, whatever their second ends. *)
Theorem sorted_diagonals_by_first_end (diagonals : list Diagonal) :
  sorted_diagonals diagonals ≡ₚ map normalize_diagonal diagonals ∧
  (∀ i j d e, (i < j)%nat →
     sorted_diagonals diagonals !! i = Some d → sorted_diagonals diagonals !! j = Some e →
     point_le d.1 e.1) ∧
  ∀ p : Point,
    filter (λ d : Diagonal, d.1 = p) (sorted_diagonals diagonals)
    = filter (λ d : Diagonal, d.1 = p) (map normalize_diagonal diagonals).
Proof.
  unfold sorted_diagonals, Diagonal in *.
  set (l := map normalize_diagonal diagonals).
  set (D := map (λ d : Point * Point, ((x d.1, y d.1), d)) l).
  assert (HD : D.*2 = l).
  { unfold D. rewrite <- list_fmap_compose. apply list_fmap_id. }
  assert (Hkey : ∀ k d, (k, d) ∈ PyList.stable_sort D → k = (x d.1, y d.1)).
  { intros k d Hin. rewrite stable_sort_perm in Hin. unfold D in Hin.
    apply list_elem_of_fmap in Hin as (d0 & Heq & _). now injection Heq as -> ->. }
  split; [|split].
  - rewrite stable_sort_perm. change (D.*2 ≡ₚ l). now rewrite HD.
  - intros i j d e Hij Hi Hj. rewrite list_lookup_fmap in Hi, Hj.
    change (snd <$> (PyList.stable_sort D !! i) = Some d) in Hi.
    change (snd <$> (PyList.stable_sort D !! j) = Some e) in Hj.
    destruct (PyList.stable_sort D !! i) as [[kd d']|] eqn:Ei; [|discriminate Hi].
    destruct (PyList.stable_sort D !! j) as [[ke e']|] eqn:Ej; [|discriminate Hj].
    simpl in Hi, Hj. injection Hi as ->. injection Hj as ->.
    pose proof (Hkey kd d (list_elem_of_lookup_2 _ _ _ Ei)) as ->.
    pose proof (Hkey ke e (list_elem_of_lookup_2 _ _ _ Ej)) as ->.
    pose proof (StronglySorted_lookup _ _ i j _ _ (stable_sort_sorted D) Hij Ei Ej) as Hle.
    simpl in Hle. unfold PyList.key_le in Hle. simpl in Hle. unfold point_le.
    apply orb_true_iff in Hle as [Hlt|Heq].
    + left. now apply Z.ltb_lt.
    + apply andb_true_iff in Heq as [Hx Hy].
      apply Z.eqb_eq in Hx. apply Z.leb_le in Hy. now right.
  - intros p.
    rewrite (filter_fmap_snd (λ d : Point * Point, d.1 = p)
               (λ e : (Z * Z) * (Point * Point), e.1 = (x p, y p))).
    + rewrite stable_sort_stable.
      rewrite <- (filter_fmap_snd (λ d : Point * Point, d.1 = p)
                    (λ e : (Z * Z) * (Point * Point), e.1 = (x p, y p)));
        [f_equal; exact HD|].
      apply Forall_forall. intros [k d] Hin.
      assert (k = (x d.1, y d.1)) as ->.
      { apply Hkey. now rewrite stable_sort_perm. }
      simpl. split; [now intros -> | intros Heq; injection Heq as Hx Hy; now apply point_eq].
    + apply Forall_forall. intros [k d] Hin. rewrite (Hkey k d Hin).
      simpl. split; [now intros -> | intros Heq; injection Heq as Hx Hy; now apply point_eq].
Qed.

Example sorted_diagonals_keeps_ties :
  sorted_diagonals [(mkPoint 0 0, mkPoint 5 5); (mkPoint 0 0, mkPoint 1 1)]
  = [(mkPoint 0 0, mkPoint 5 5); (mkPoint 0 0, mkPoint 1 1)].
Proof. reflexivity. Qed.

(** ** Moving the polygon *)

Section Translate.
Variables dx dy : Z.

Local Abbreviation T := (translate dx dy).
Local Abbreviation TD := (translate_diagonal dx dy).
Local Abbreviation shift_key := (shift_sweep_key dx dy).
Local Abbreviation translate_state := (translate_sweep_state dx dy).

Lemma getitem_fmap {A B : Type} (f : A → B) (l : list A) i :
  PyList.getitem (f <$> l) i = f <$> PyList.getitem l i.
Proof.
  unfold PyList.getitem. rewrite list_lookup_fmap. now destruct (l !! i).
Qed.

Lemma x_key_translate points i :
  x_key (T <$> points) i = (λ k, k + dx) <$> x_key points i.
Proof.
  unfold x_key. rewrite getitem_fmap. now destruct (PyList.getitem points i).
Qed.

Lemma min_scan_translate points l : ∀ best kbest,
  PyList.min_scan (x_key (T <$> points)) best (kbest + dx) l
  = PyList.min_scan (x_key points) best kbest l.
Proof.
  induction l as [|i l IH]; intros best kbest; simpl; [reflexivity|].
  rewrite x_key_translate. destruct (x_key points i) as [k| |]; simpl; try reflexivity.
  replace (k + dx <? kbest + dx) with (k <? kbest)
    by (destruct (Z.ltb_spec k kbest), (Z.ltb_spec (k + dx) (kbest + dx)); lia || reflexivity).
  destruct (k <? kbest); apply IH.
Qed.

Lemma max_scan_translate points l : ∀ best kbest,
  PyList.max_scan (x_key (T <$> points)) best (kbest + dx) l
  = PyList.max_scan (x_key points) best kbest l.
Proof.
  induction l as [|i l IH]; intros best kbest; simpl; [reflexivity|].
  rewrite x_key_translate. destruct (x_key points i) as [k| |]; simpl; try reflexivity.
  replace (k + dx >? kbest + dx) with (k >? kbest)
    by (destruct (Z.gtb_spec k kbest), (Z.gtb_spec (k + dx) (kbest + dx)); lia || reflexivity).
  destruct (k >? kbest); apply IH.
Qed.

Lemma leftmost_translate points : leftmost (T <$> points) = leftmost points.
Proof.
  unfold leftmost, PyList.min. rewrite length_fmap.
  destruct (PyList.range 0 (length points)) as [|i l]; [reflexivity|].
  rewrite x_key_translate. destruct (x_key points i) as [k| |]; simpl; try reflexivity.
  apply min_scan_translate.
Qed.

Lemma rightmost_translate points : rightmost (T <$> points) = rightmost points.
Proof.
  unfold rightmost, PyList.max. rewrite length_fmap.
  destruct (PyList.range 0 (length points)) as [|i l]; [reflexivity|].
  rewrite x_key_translate. destruct (x_key points i) as [k| |]; simpl; try reflexivity.
  apply max_scan_translate.
Qed.

Lemma find_chains_fuel_translate fuel points :
  find_chains_fuel fuel (T <$> points) = find_chains_fuel fuel points.
Proof.
  unfold find_chains_fuel.
  now rewrite leftmost_translate, rightmost_translate, length_fmap.
Qed.

Lemma key_le_shift (a b : (Z * Z) * nat) :
  PyList.key_le (shift_key a).1 (shift_key b).1 = PyList.key_le a.1 b.1.
Proof.
  unfold PyList.key_le, shift_sweep_key. simpl.
  destruct a as [[a1 a2] ia], b as [[b1 b2] ib]. simpl.
  replace (a1 + dx <? b1 + dx) with (a1 <? b1)
    by (destruct (Z.ltb_spec a1 b1), (Z.ltb_spec (a1 + dx) (b1 + dx)); lia || reflexivity).
  replace (a1 + dx =? b1 + dx) with (a1 =? b1)
    by (destruct (Z.eqb_spec a1 b1), (Z.eqb_spec (a1 + dx) (b1 + dx)); lia || reflexivity).
  replace (a2 - dy <=? b2 - dy) with (a2 <=? b2)
    by (destruct (Z.leb_spec a2 b2), (Z.leb_spec (a2 - dy) (b2 - dy)); lia || reflexivity).
  reflexivity.
Qed.

Lemma insert_sorted_shift a l :
  PyList.insert_sorted (shift_key a) (shift_key <$> l)
  = shift_key <$> PyList.insert_sorted a l.
Proof.
  induction l as [|b l IH]; [reflexivity|].
  rewrite fmap_cons. cbn [PyList.insert_sorted].
  rewrite key_le_shift. destruct (PyList.key_le a.1 b.1); [reflexivity|].
  rewrite fmap_cons. f_equal. exact IH.
Qed.

Lemma stable_sort_shift l :
  PyList.stable_sort (shift_key <$> l) = shift_key <$> PyList.stable_sort l.
Proof.
  induction l as [|a l IH]; [reflexivity|].
  rewrite fmap_cons. cbn [PyList.stable_sort].
  now rewrite IH, insert_sorted_shift.
Qed.

Lemma sweep_key_translate points i :
  sweep_key (T <$> points) i = (λ k, (k.1 + dx, k.2 - dy)) <$> sweep_key points i.
Proof.
  unfold sweep_key. rewrite getitem_fmap.
  destruct (PyList.getitem points i) as [p| |]; simpl; try reflexivity.
  f_equal. f_equal. lia.
Qed.

Lemma keys_of_translate points l :
  PyList.keys_of (sweep_key (T <$> points)) l
  = fmap (M := list) shift_key <$> PyList.keys_of (sweep_key points) l.
Proof.
  induction l as [|i l IH]; simpl; [reflexivity|].
  rewrite sweep_key_translate, IH.
  destruct (sweep_key points i) as [k| |]; simpl; try reflexivity.
  now destruct (PyList.keys_of (sweep_key points) l).
Qed.

Lemma sweep_order_translate points : sweep_order (T <$> points) = sweep_order points.
Proof.
  unfold sweep_order, PyList.sorted. rewrite length_fmap, keys_of_translate.
  destruct (PyList.keys_of (sweep_key points) _) as [d| |]; simpl; try reflexivity.
  rewrite stable_sort_shift. f_equal. rewrite <- list_fmap_compose.
  apply list_fmap_ext. now intros _ [k i] _.
Qed.

Lemma connect_loop_translate fuel points c : ∀ stack diagonals,
  connect_loop fuel (T <$> points) c stack (TD <$> diagonals)
  = translate_state <$> connect_loop fuel points c stack diagonals.
Proof.
  induction fuel as [|fuel IH]; intros stack diagonals; [reflexivity|].
  cbn [connect_loop]. destruct (decide _); [|reflexivity].
  destruct (PyList.pop stack) as [[v stack']| |]; try reflexivity.
  cbn [mbind result_mbind result_bind]. rewrite !getitem_fmap.
  destruct (PyList.getitem points c) as [pc| |]; try reflexivity.
  destruct (PyList.getitem points v) as [pv| |]; try reflexivity.
  cbn [mbind result_mbind result_bind fmap result_fmap].
  rewrite <- IH. f_equal. unfold PyList.append. now rewrite fmap_app.
Qed.

Lemma same_chain_loop_translate fuel points chain cur_idx : ∀ stack diagonals,
  same_chain_loop fuel (T <$> points) chain cur_idx stack (TD <$> diagonals)
  = translate_state <$> same_chain_loop fuel points chain cur_idx stack diagonals.
Proof.
  induction fuel as [|fuel IH]; intros stack diagonals; [reflexivity|].
  cbn [same_chain_loop]. destruct (decide _); [|reflexivity].
  destruct (PyList.getitem_back stack 2) as [a| |]; try reflexivity.
  destruct (PyList.getitem_back stack 1) as [b| |]; try reflexivity.
  cbn [mbind result_mbind result_bind]. rewrite !getitem_fmap.
  destruct (PyList.getitem points a) as [pa| |]; try reflexivity.
  destruct (PyList.getitem points b) as [pb| |]; try reflexivity.
  destruct (PyList.getitem points cur_idx) as [pc| |]; try reflexivity.
  cbn [mbind result_mbind result_bind fmap result_fmap]. cbv zeta.
  destruct (PyList.getitem chain cur_idx) as [label| |]; try reflexivity.
  cbn [mbind result_mbind result_bind]. rewrite orientation_translate.
  destruct (ear_test label _); [|reflexivity].
  destruct (PyList.pop stack) as [[v stack']| |]; try reflexivity.
  cbn [mbind result_mbind result_bind].
  rewrite <- IH. f_equal. unfold PyList.append. now rewrite fmap_app.
Qed.

Ltac result_case c :=
  destruct c as [?| |];
  cbn [mbind result_mbind result_bind fmap result_fmap]; try reflexivity.

Lemma sweep_step_translate fuel points chain order i st :
  sweep_step fuel (T <$> points) chain order i (translate_state st)
  = translate_state <$> sweep_step fuel points chain order i st.
Proof.
  destruct st as [stack diagonals]. unfold sweep_step, translate_sweep_state. cbn [fst snd].
  destruct (PyList.getitem order i) as [cur| |];
    cbn [mbind result_mbind result_bind fmap result_fmap]; try reflexivity.
  result_case (PyList.getitem_back stack 1).
  result_case (PyList.getitem chain cur).
  result_case (PyList.getitem chain a).
  destruct (decide (a0 ≠ a1)).
  - unfold chain_change. cbn [fst snd]. rewrite connect_loop_translate.
    destruct (connect_loop fuel points cur stack diagonals) as [[s ds]| |];
      cbn [mbind result_mbind result_bind fmap result_fmap translate_sweep_state fst snd];
      try reflexivity.
    destruct (PyList.pop s) as [[v s']| |];
      cbn [mbind result_mbind result_bind fmap result_fmap]; try reflexivity.
    result_case (PyList.getitem order (i - 1)).
  - unfold same_chain. cbn [fst snd]. rewrite same_chain_loop_translate.
    destruct (same_chain_loop fuel points chain cur stack diagonals) as [[s ds]| |];
      reflexivity.
Qed.

Lemma sweep_loop_translate fuel points chain order idxs : ∀ st,
  sweep_loop fuel (T <$> points) chain order idxs (translate_state st)
  = translate_state <$> sweep_loop fuel points chain order idxs st.
Proof.
  induction idxs as [|i idxs IH]; intros st; [reflexivity|].
  cbn [sweep_loop]. rewrite sweep_step_translate.
  result_case (sweep_step fuel points chain order i st).
  apply IH.
Qed.

Lemma last_vertex_translate fuel points order st :
  last_vertex fuel (T <$> points) order (translate_state st)
  = translate_state <$> last_vertex fuel points order st.
Proof.
  destruct st as [stack diagonals]. unfold last_vertex, translate_sweep_state. cbn [fst snd].
  result_case (PyList.getitem_back order 1).
  destruct (decide (stack ≠ [])).
  - destruct (PyList.pop stack) as [[v s]| |];
      cbn [mbind result_mbind result_bind fmap result_fmap]; try reflexivity.
    apply connect_loop_translate.
  - cbn [mbind result_mbind result_bind]. apply connect_loop_translate.
Qed.

Lemma triangulate_fuel_translate fuel points :
  triangulate_fuel fuel (T <$> points)
  = fmap (M := list) TD <$> triangulate_fuel fuel points.
Proof.
  unfold triangulate_fuel, sweep_fuel. cbv zeta.
  rewrite find_chains_fuel_translate, sweep_order_translate, length_fmap.
  result_case (find_chains_fuel fuel points).
  result_case (sweep_order points).
  result_case (PyList.getitem a0 0).
  result_case (PyList.getitem a0 1).
  change (PyList.append (PyList.append [] a1) a2, @nil Diagonal)
    with (translate_state (PyList.append (PyList.append [] a1) a2, [])) at 1.
  rewrite sweep_loop_translate.
  result_case (sweep_loop fuel points a a0 (PyList.range 2 (length points - 1))
                 (PyList.append (PyList.append [] a1) a2, [])).
  rewrite last_vertex_translate.
  destruct (last_vertex fuel points a0 a3) as [[s ds]| |]; reflexivity.
Qed.

End Translate.

(** X11: moving all the points by the same vector changes neither the
    labels nor the sweep order, and the triangulation of the moved points
    is the triangulation of the points with every diagonal moved by that
    vector; an error stays the same error. *)
Theorem triangulate_translate (dx dy : Z) (points : list Point) :
  find_chains (translate dx dy <$> points) = find_chains points ∧
  sweep_order (translate dx dy <$> points) = sweep_order points ∧
  triangulate_x_monotone (translate dx dy <$> points)
  = fmap (M := list) (translate_diagonal dx dy) <$> triangulate_x_monotone points.
Proof.
  split; [|split].
  - unfold find_chains. rewrite length_fmap. apply find_chains_fuel_translate.
  - apply sweep_order_translate.
  - unfold triangulate_x_monotone. rewrite length_fmap. apply triangulate_fuel_translate.
Qed.

(** X12: the orientation of three points is the same after the three points
    are moved by the same vector. *)
Theorem orientation_translate_invariant (dx dy : Z) (p q r : Point) :
  orientation (translate dx dy p) (translate dx dy q) (translate dx dy r)
  = orientation p q r.
Proof. apply orientation_translate. Qed.
